(** * 2D terrain generation: the mesh-subdivision core of [utils.py] and
      the two queue loops of [terrain.py], embedded and verified.

    The embedding follows the Python source function by function.  Python
    objects that are mutated through shared references (the [Node]s and
    their [connections] sets, the [Triangle]s, the memoisation dictionary
    of [cache_nodes], the class counter [Node._current_id]) live in one
    explicit store, the [World]; a reference is an index into an arena of
    that store.  Python exceptions are values of type [exn]; a call
    returns a [result] together with the store it leaves behind, because
    a mutation performed before a [raise] stays performed.  Coordinates
    are IEEE-754 binary64 numbers, as numpy's [float64] are, computed
    with the executable specification of the Standard Library
    ([SpecFloat]). *)

From Stdlib Require Import ZArith List String Bool Lia SpecFloat.
From stdpp Require Import base tactics option list gmap.

#[local] Set Warnings "-clear-no-such-hyp".

(** ** Python exceptions and results *)

Module Py.

(** The exceptions the source raises or can meet.  A message is either a
    literal text or an f-string made of a literal prefix followed by the
    text of another exception ([f"...: {e}"]). *)
Inductive exn : Type :=
| ValueError (msg : message)
| AssertionError (msg : message)
| ZeroDivisionError (msg : message)
| IndexError (msg : message)
| AttributeError (msg : message)
| KeyError (key : nat)
with message : Type :=
| Text (s : string)
| FString (prefix : string) (e : exn).

Inductive result (A : Type) : Type :=
| Ok (a : A)
| Raise (e : exn).
Arguments Ok {A} a.
Arguments Raise {A} e.

Definition is_ok {A} (r : result A) : bool :=
  match r with Ok _ => true | Raise _ => false end.

End Py.
Export Py.

(** ** numpy's float64 arithmetic *)

Module NumPy.

Local Open Scope Z_scope.

Definition float64 : Type := spec_float.

Definition prec : Z := 53.
Definition emax : Z := 1024.

Definition fadd : float64 -> float64 -> float64 := SFadd prec emax.
Definition fsub : float64 -> float64 -> float64 := SFsub prec emax.
Definition fmul : float64 -> float64 -> float64 := SFmul prec emax.
Definition fdiv : float64 -> float64 -> float64 := SFdiv prec emax.
Definition fsqrt : float64 -> float64 := SFsqrt prec emax.
Definition fneg : float64 -> float64 := SFopp.

(** The float64 nearest to an integer, and [m * 2^e]. *)
Definition of_Z (z : Z) : float64 := binary_normalize prec emax z 0 false.
Definition ldexp (m e : Z) : float64 := binary_normalize prec emax m e false.

Definition nan : float64 := S754_nan.
Definition zero : float64 := S754_zero false.

(** The literals of the source: [2], [2.3] and the default roughness
    [0.3] (the binary64 numbers nearest to the decimal literals). *)
Definition lit_2 : float64 := S754_finite false 4503599627370496 (-51).
Definition lit_2_3 : float64 := S754_finite false 5179139571476070 (-51).
Definition lit_0_3 : float64 := S754_finite false 5404319552844595 (-54).
Definition lit_0_5 : float64 := S754_finite false 4503599627370496 (-53).
Definition lit_1 : float64 := S754_finite false 4503599627370496 (-52).

Definition is_nan (x : float64) : bool :=
  match x with S754_nan => true | _ => false end.

Definition is_zero (x : float64) : bool :=
  match x with S754_zero _ => true | _ => false end.

(** Neither an infinity nor a NaN. *)
Definition is_finite (x : float64) : bool :=
  match x with S754_zero _ | S754_finite _ _ _ => true | _ => false end.

Definition sign_bit (x : float64) : bool :=
  match x with
  | S754_zero s | S754_infinity s | S754_finite s _ _ => s
  | S754_nan => false
  end.

(** C's truth value of a float ([if (x)]): anything but a zero. *)
Definition truthy (x : float64) : bool := negb (is_zero x).

Definition copysign_zero (x : float64) : float64 := S754_zero (sign_bit x).

(** C's [fmod]: the exact remainder of the truncated division, with the
    sign of the dividend. *)
Definition fmod (a b : float64) : float64 :=
  match a, b with
  | S754_nan, _ | _, S754_nan => S754_nan
  | S754_infinity _, _ => S754_nan
  | _, S754_zero _ => S754_nan
  | _, S754_infinity _ => a
  | S754_zero _, _ => a
  | S754_finite sa ma ea, S754_finite _ mb eb =>
      let e := Z.min ea eb in
      let A := Z.shiftl (Zpos ma) (ea - e) in
      let B := Z.shiftl (Zpos mb) (eb - e) in
      let r := A mod B in
      binary_normalize prec emax (if sa then - r else r) e sa
  end.

(** C's [floor]. *)
Definition floor (x : float64) : float64 :=
  match x with
  | S754_finite s m e =>
      if 0 <=? e then x
      else
        let q := Z.shiftr (Zpos m) (- e) in
        let exact := Z.shiftl q (- e) =? Zpos m in
        if s then binary_normalize prec emax (- (if exact then q else q + 1)) 0 true
        else binary_normalize prec emax q 0 false
  | _ => x
  end.

(** [a // b] on float64 scalars: numpy's [npy_floor_divide], which for a
    non-zero divisor is the quotient of [npy_divmod] (the algorithm of
    Python's own float [divmod]). *)
Definition floor_divide (a b : float64) : float64 :=
  if is_zero b then fdiv a b
  else
    let remainder := fmod a b in
    let quotient := fdiv (fsub a remainder) b in
    let quotient :=
      if truthy remainder && negb (Bool.eqb (SFltb b zero) (SFltb remainder zero))
      then fsub quotient lit_1 else quotient in
    if truthy quotient then
      let floordiv := floor quotient in
      if SFltb lit_0_5 (fsub quotient floordiv) then fadd floordiv lit_1
      else floordiv
    else copysign_zero (fdiv a b).

(** One-dimensional arrays; the shape of [l] is [(length l,)]. *)
Definition ndarray : Type := list float64.

Definition shape (a : ndarray) : nat := length a.

Fixpoint zip_with_f (f : float64 -> float64 -> float64) (a b : ndarray) : ndarray :=
  match a, b with
  | x :: a', y :: b' => f x y :: zip_with_f f a' b'
  | _, _ => []
  end.

Definition arr_add : ndarray -> ndarray -> ndarray := zip_with_f fadd.
Definition arr_sub : ndarray -> ndarray -> ndarray := zip_with_f fsub.
Definition arr_scale (a : ndarray) (k : float64) : ndarray := map (fun x => fmul x k) a.

(** [a / k]: element-wise true division by a scalar.  With numpy's
    default error state a division by zero yields [inf] or [nan] and a
    RuntimeWarning; it does not raise. *)
Definition true_divide (a : ndarray) (k : float64) : result ndarray :=
  Ok (map (fun x => fdiv x k) a).

Definition item (a : ndarray) (i : nat) : float64 := nth i a nan.

(** [x.dot(x)] for real vectors, summed left to right, every product
    rounded.  A BLAS that fuses the multiplication and the addition can
    give a sum that differs in the last bit; nothing proved below
    depends on that bit. *)
Definition dot (a b : ndarray) : float64 :=
  match zip_with_f fmul a b with
  | [] => zero
  | p :: ps => fold_left fadd ps p
  end.

(** [np.linalg.norm] of a vector: [sqrt (x.dot(x))]. *)
Definition linalg_norm (a : ndarray) : float64 := fsqrt (dot a a).

(** [random.uniform(a, b)] is [a + (b - a) * random()]; [rnd] is the value
    [random()] returns, a float64 in [[0, 1)]. *)
Definition uniform (a b rnd : float64) : float64 := fadd a (fmul (fsub b a) rnd).

End NumPy.
Export NumPy.

(** ** [random_perpendicular_point] *)

(** [(start + end) / 2]. *)
Definition segment_midpoint (start end_ : ndarray) : ndarray :=
  map (fun x => fdiv x lit_2) (arr_add start end_).

Definition msg_dimension : message :=
  Text "Both 'start' and 'end' must be 2-dimensional vectors.".
Definition msg_zero_length : message :=
  Text "Cannot create a normal from a zero-length segment ('start' and 'end' are identical).".

Definition random_perpendicular_point
    (start end_ : ndarray) (roughtness : float64) (rnd : float64) : result ndarray :=
  if negb (Nat.eqb (shape start) 2) || negb (Nat.eqb (shape end_) 2) then
    Raise (ValueError msg_dimension)
  else
    let segment_vector := arr_sub end_ start in
    let norm := linalg_norm segment_vector in
    match true_divide segment_vector norm with
    | Raise (ZeroDivisionError _) => Raise (ZeroDivisionError msg_zero_length)
    | Raise e => Raise e
    | Ok unit_segment_vector =>
        let normal_vector :=
          [fneg (item unit_segment_vector 1); item unit_segment_vector 0] in
        let alpha := fmul (floor_divide norm lit_2_3) roughtness in
        let displacement := uniform (fneg alpha) alpha rnd in
        let midpoint := segment_midpoint start end_ in
        Ok (arr_add (arr_scale normal_vector displacement) midpoint)
    end.

(** ** The object store *)

(** A [Node] object: its coordinate array, the set of the nodes it is
    connected to (references, compared by identity) and its identifier. *)
Record Node : Type := mkNode {
  coordinates : ndarray;
  connections : gset nat;
  unique_id : Z
}.

(** A [Triangle] object: three node references, never reassigned. *)
Record Triangle : Type := mkTriangle {
  node_a : nat;
  node_b : nat;
  node_c : nat
}.

Record World : Type := mkWorld {
  nodes : list Node;              (* the Node objects, by reference *)
  current_id : Z;                 (* the class attribute Node._current_id *)
  triangles : list Triangle;      (* the Triangle objects, by reference *)
  cache : gmap (list Z) nat;      (* the dict of the wrapper of create_new_node *)
  random_outputs : nat -> float64;(* what the calls of random.random() return *)
  random_calls : nat;             (* how many of them were consumed *)
  screen : list (list ndarray)    (* the polygons handed to pygame.draw *)
}.

(** The state of the program before the first statement of [main]. *)
Definition initial_world (rnd : nat -> float64) : World :=
  mkWorld [] 0 [] ∅ rnd 0 [].

Definition allocated (w : World) (a : nat) : Prop := a < length (nodes w).

(** Field reads through a reference.  A reference is always the index of
    an object of the arena; the defaults below are never observed on
    one. *)
Definition conn (w : World) (a : nat) : gset nat :=
  from_option connections ∅ (nodes w !! a).
Definition coords (w : World) (a : nat) : ndarray :=
  from_option coordinates [] (nodes w !! a).
Definition uid (w : World) (a : nat) : Z :=
  from_option unique_id 0%Z (nodes w !! a).
Definition triangle_at (w : World) (t : nat) : Triangle :=
  default (mkTriangle 0 0 0) (triangles w !! t).

Definition with_nodes (f : list Node -> list Node) (w : World) : World :=
  mkWorld (f (nodes w)) (current_id w) (triangles w) (cache w)
          (random_outputs w) (random_calls w) (screen w).

Definition update_connections (a : nat) (f : gset nat -> gset nat) : World -> World :=
  with_nodes (alter (fun n => mkNode (coordinates n) (f (connections n)) (unique_id n)) a).

(** ** Computations: a store-passing monad with exceptions *)

Definition M (A : Type) : Type := World -> result A * World.

Definition ret {A} (a : A) : M A := fun w => (Ok a, w).
Definition raise {A} (e : exn) : M A := fun w => (Raise e, w).
Definition bind {A B} (m : M A) (k : A -> M B) : M B :=
  fun w => match m w with
           | (Ok a, w') => k a w'
           | (Raise e, w') => (Raise e, w')
           end.
(** [try: body except Exception as e: handler e]; every exception of the
    model derives from [Exception]. *)
Definition try_except {A} (body : M A) (handler : exn -> M A) : M A :=
  fun w => match body w with
           | (Ok a, w') => (Ok a, w')
           | (Raise e, w') => handler e w'
           end.
Definition modify (f : World -> World) : M unit := fun w => (Ok tt, f w).
Definition gets {A} (f : World -> A) : M A := fun w => (Ok (f w), w).

Notation "x <- m ;; k" := (bind m (fun x => k))
  (at level 100, m at next level, right associativity).
Notation "m ;;; k" := (bind m (fun _ => k))
  (at level 100, right associativity).

(** ** class Node *)

(** [Node._get_unique_id]. *)
Definition _get_unique_id (reset : bool) : M Z :=
  fun w =>
    let id := if reset then 0%Z else (current_id w + 1)%Z in
    (Ok id, mkWorld (nodes w) id (triangles w) (cache w)
                    (random_outputs w) (random_calls w) (screen w)).

(** [Node(x, y)]: the reference of the new object. *)
Definition Node_init (x y : float64) : M nat :=
  id <- _get_unique_id false ;;
  self <- gets (fun w => length (nodes w)) ;;
  modify (with_nodes (fun l => l ++ [mkNode [x; y] ∅ id])) ;;;
  ret self.

Definition msg_self_connection : message := Text "A node cannot connect to itself.".
Definition msg_no_connection : message := Text "No connection exists with the specified node.".

(** [set.add] and [set.remove] on the [connections] of [owner];
    [remove] raises [KeyError] on a missing element. *)
Definition set_add (owner elem : nat) : M unit :=
  modify (update_connections owner (fun s => s ∪ {[elem]})).
Definition set_remove (owner elem : nat) : M unit :=
  fun w =>
    if decide (elem ∈ conn w owner)
    then (Ok tt, update_connections owner (fun s => s ∖ {[elem]}) w)
    else (Raise (KeyError elem), w).

Definition has_connection (self other_node : nat) : M bool :=
  gets (fun w => bool_decide (other_node ∈ conn w self)).

Definition add_connection (self other_node : nat) : M unit :=
  if decide (other_node = self) then raise (AssertionError msg_self_connection)
  else
    present <- has_connection self other_node ;;
    if present then ret tt
    else set_add self other_node ;;; set_add other_node self.

Definition remove_connection (self other_node : nat) : M unit :=
  present <- has_connection self other_node ;;
  if present then set_remove self other_node ;;; set_remove other_node self
  else raise (ValueError msg_no_connection).

(** ** The decorator [cache_nodes] *)

Fixpoint insert_sorted (x : Z) (l : list Z) : list Z :=
  match l with
  | [] => [x]
  | y :: l' => if (x <=? y)%Z then x :: l else y :: insert_sorted x l'
  end.

(** Python's [sorted] on a list of integers. *)
Definition sorted (l : list Z) : list Z := foldr insert_sorted [] l.

(** [tuple(sorted(node.unique_id for node in args))]. *)
Definition cache_key (w : World) (args : list nat) : list Z :=
  sorted (map (uid w) args).

Definition cache_store (key : list Z) (r : nat) (w : World) : World :=
  mkWorld (nodes w) (current_id w) (triangles w) (<[key := r]> (cache w))
          (random_outputs w) (random_calls w) (screen w).

(** The [wrapper] around [func], called with [args]: on a hit the stored result, without
    calling [func]; on a miss the result of [func], stored when [func]
    returns. *)
Definition cache_nodes (func : M nat) (args : list nat) : M nat :=
  key <- gets (fun w => cache_key w args) ;;
  hit <- gets (fun w => cache w !! key) ;;
  match hit with
  | Some r => ret r
  | None =>
      r <- func ;;
      modify (cache_store key r) ;;;
      ret r
  end.

(** ** [create_new_node] *)

Definition msg_not_connected : message :=
  Text "Nodes must be connected to create a new node between them.".
Definition prefix_creation : string := "An error occurred while creating a new node: ".
Definition msg_unpack : message := Text "not enough values to unpack (expected 2)".

(** The call of [random_perpendicular_point] with the default roughness;
    it consumes an output of [random.random()] when it reaches the draw. *)
Definition draw_perpendicular_point (start end_ : ndarray) : M ndarray :=
  fun w =>
    match random_perpendicular_point start end_ lit_0_3
            (random_outputs w (random_calls w)) with
    | Ok p => (Ok p, mkWorld (nodes w) (current_id w) (triangles w) (cache w)
                             (random_outputs w) (S (random_calls w)) (screen w))
    | Raise e => (Raise e, w)
    end.

(** The body of the [try] statement. *)
Definition create_new_node_try (node_a node_b : nat) : M nat :=
  start <- gets (fun w => coords w node_a) ;;
  end_ <- gets (fun w => coords w node_b) ;;
  p <- draw_perpendicular_point start end_ ;;
  match p with
  | [x; y] =>
      new_node <- Node_init x y ;;
      add_connection new_node node_a ;;;
      add_connection new_node node_b ;;;
      remove_connection node_a node_b ;;;
      ret new_node
  | _ => raise (ValueError msg_unpack)
  end.

(** The undecorated function. *)
Definition create_new_node_func (node_a node_b : nat) : M nat :=
  connected <- has_connection node_a node_b ;;
  if negb connected then raise (ValueError msg_not_connected)
  else
    try_except (create_new_node_try node_a node_b)
      (fun e => raise (ValueError (FString prefix_creation e))).

(** [create_new_node], as the module exports it: decorated. *)
Definition create_new_node (node_a node_b : nat) : M nat :=
  cache_nodes (create_new_node_func node_a node_b) [node_a; node_b].

(** ** class FIFO *)

(** The Python values that travel through a queue: references to
    triangles and nodes, integers, lists and tuples. *)
#[local] Set Warnings "-register-all".
Inductive value : Type :=
| VTriangle (t : nat)
| VNode (n : nat)
| VInt (z : Z)
| VList (l : list value)
| VTuple (l : list value).

(** [isinstance(v, list)]. *)
Definition isinstance_list (v : value) : bool :=
  match v with VList _ => true | _ => false end.

Record FIFO : Type := mkFIFO { items : list value }.

Definition FIFO_init : FIFO := mkFIFO [].

Definition enqueue (self : FIFO) (item : value) (is_list : bool) : FIFO :=
  if is_list && isinstance_list item then
    match item with
    | VList l => mkFIFO (items self ++ l)
    | _ => self
    end
  else mkFIFO (items self ++ [item]).

Definition is_empty (self : FIFO) : bool := Nat.eqb (length (items self)) 0.

Definition size (self : FIFO) : nat := length (items self).

Definition msg_empty_queue : message := Text "dequeue from an empty queue".

(** [dequeue]: the front item and the queue without it. *)
Definition dequeue (self : FIFO) : result (value * FIFO) :=
  if is_empty self then Raise (IndexError msg_empty_queue)
  else match items self with
       | x :: rest => Ok (x, mkFIFO rest)
       | [] => Raise (IndexError msg_empty_queue)
       end.

(** ** class Triangle *)

Definition create_edges (self : nat) : M unit :=
  t <- gets (fun w => triangle_at w self) ;;
  add_connection (node_a t) (node_b t) ;;;
  add_connection (node_a t) (node_c t) ;;;
  add_connection (node_b t) (node_c t).

(** [Triangle(a, b, c)]: the object is allocated, its fields are set and
    [create_edges] runs; the reference is returned when it did not
    raise. *)
Definition Triangle_init (a b c : nat) : M nat :=
  self <- gets (fun w => length (triangles w)) ;;
  modify (fun w => mkWorld (nodes w) (current_id w) (triangles w ++ [mkTriangle a b c])
                           (cache w) (random_outputs w) (random_calls w) (screen w)) ;;;
  create_edges self ;;;
  ret self.

Definition subdivide (self : nat) : M (list nat) :=
  t <- gets (fun w => triangle_at w self) ;;
  node_d <- create_new_node (node_a t) (node_b t) ;;
  node_e <- create_new_node (node_b t) (node_c t) ;;
  node_f <- create_new_node (node_a t) (node_c t) ;;
  triangle_1 <- Triangle_init node_d (node_b t) node_e ;;
  triangle_2 <- Triangle_init (node_a t) node_d node_f ;;
  triangle_3 <- Triangle_init node_f node_e (node_c t) ;;
  triangle_4 <- Triangle_init node_d node_e node_f ;;
  ret [triangle_1; triangle_2; triangle_3; triangle_4].

(** The point list [draw] passes to [pygame.draw.polygon]. *)
Definition polygon (w : World) (self : nat) : list ndarray :=
  let t := triangle_at w self in
  [coords w (node_a t); coords w (node_b t); coords w (node_c t)].

(** [draw]: the three coordinate arrays go to the drawing primitive. *)
Definition draw (self : nat) : M unit :=
  modify (fun w =>
    mkWorld (nodes w) (current_id w) (triangles w) (cache w)
            (random_outputs w) (random_calls w)
            (screen w ++ [polygon w self])).

(** ** terrain.py: the two loops of [main] *)

Definition msg_no_subdivide : message := Text "object has no attribute 'subdivide'".
Definition msg_no_draw : message := Text "object has no attribute 'draw'".

Definition lift {A} (r : result A) : M A :=
  match r with Ok a => ret a | Raise e => raise e end.

(** The body of the expansion loop; it returns [current_triangle] with
    the queue. *)
Definition expansion_body (queue : FIFO) : M (value * FIFO) :=
  dq <- lift (dequeue queue) ;;
  let current_triangle := dq.1 in
  let queue := dq.2 in
  match current_triangle with
  | VTriangle t =>
      triangles <- subdivide t ;;
      ret (current_triangle, enqueue queue (VList (map VTriangle triangles)) true)
  | _ => raise (AttributeError msg_no_subdivide)
  end.

(** [n] rounds of the loop body.  Beside the queue, the result lists the
    values [current_triangle] took, in order: the triangles that were
    subdivided. *)
Fixpoint expansion_loop (n : nat) (queue : FIFO) : M (list value * FIFO) :=
  match n with
  | O => ret ([], queue)
  | S n' =>
      r <- expansion_body queue ;;
      rest <- expansion_loop n' r.2 ;;
      ret (r.1 :: rest.1, rest.2)
  end.

(** [(4 ** depth - 1) // 3]. *)
Definition expansion_count (depth : Z) : Z := ((4 ^ depth - 1) / 3)%Z.

(** [for _ in range((4 ** depth - 1) // 3): ...] *)
Definition expansion (depth : Z) (queue : FIFO) : M (list value * FIFO) :=
  expansion_loop (Z.to_nat (expansion_count depth)) queue.

(** The body of the drawing loop. *)
Definition render_body (queue : FIFO) : M FIFO :=
  dq <- lift (dequeue queue) ;;
  let current_triangle := dq.1 in
  let queue := dq.2 in
  match current_triangle with
  | VTriangle t => draw t ;;; ret (enqueue queue current_triangle false)
  | _ => raise (AttributeError msg_no_draw)
  end.

Fixpoint render_loop (n : nat) (queue : FIFO) : M FIFO :=
  match n with
  | O => ret queue
  | S n' => queue' <- render_body queue ;; render_loop n' queue'
  end.

(** [for _ in range(queue.size()): ...]: the size is read once. *)
Definition render_frame (queue : FIFO) : M FIFO :=
  render_loop (size queue) queue.

(** The seed: three nodes and the triangle on them. *)
Definition seed_triangle (ax ay bx by_ cx cy : float64) : M nat :=
  A <- Node_init ax ay ;;
  B <- Node_init bx by_ ;;
  C <- Node_init cx cy ;;
  Triangle_init A B C.

(** [main] up to the end of the expansion, for a given [depth] (the
    source fixes [depth = 6]) and seed coordinates (the source fixes
    (100, 600), (350, 200), (600, 600)). *)
Definition build_mesh (ax ay bx by_ cx cy : float64) (depth : Z) : M FIFO :=
  root_triangle <- seed_triangle ax ay bx by_ cx cy ;;
  let queue := enqueue FIFO_init (VTriangle root_triangle) false in
  r <- expansion depth queue ;;
  ret r.2.

Definition main_mesh : M FIFO :=
  build_mesh (of_Z 100) (of_Z 600) (of_Z 350) (of_Z 200) (of_Z 600) (of_Z 600) 6.

(** * Verification *)

(** ** The float64 facts the claims need *)

Section Float_facts.

Lemma fsub_diag (x : float64) :
  fsub x x = S754_zero false ∨ fsub x x = S754_nan.
Proof.
  destruct x as [[]|[]| |s m e]; simpl; auto.
  left. unfold fsub, SFsub. rewrite Z.sub_diag. reflexivity.
Qed.

Lemma fmul_zero_r (x : float64) (s : bool) :
  is_finite x = true → is_zero (fmul x (S754_zero s)) = true.
Proof. destruct x as [[]|[]| |? ? ?]; simpl; intros; done. Qed.

Lemma fmul_zero_l (x : float64) (s : bool) :
  is_finite x = true → is_zero (fmul (S754_zero s) x) = true.
Proof. destruct x as [[]|[]| |? ? ?]; simpl; intros; done. Qed.

Lemma fneg_zero (x : float64) : is_zero x = true → is_zero (fneg x) = true.
Proof. destruct x; simpl; done. Qed.

Lemma fsub_zero (x y : float64) :
  is_zero x = true → is_zero y = true → is_zero (fsub x y) = true.
Proof. destruct x as [[]| | |]; destruct y as [[]| | |]; simpl; done. Qed.

Lemma fadd_zero (x y : float64) :
  is_zero x = true → is_zero y = true → is_zero (fadd x y) = true.
Proof. destruct x as [[]| | |]; destruct y as [[]| | |]; simpl; done. Qed.

(** The same float64, or two zeros (of any signs): what [==] tells apart
    on numbers, extended to [nan = nan]. *)
Definition same_number (x y : float64) : Prop :=
  x = y ∨ (is_zero x = true ∧ is_zero y = true).

Lemma fadd_zero_l_same (z m : float64) :
  is_zero z = true → same_number (fadd z m) m.
Proof.
  destruct z as [sz| | |]; try done. intros _.
  destruct m as [sm|sm| |sm mm em]; simpl.
  - right. split; [|done]. by destruct sz, sm.
  - by left.
  - by left.
  - by left.
Qed.

End Float_facts.

(** ** Reading the store after an update *)

Section Views.

Implicit Types (w : World) (a b c : nat) (f : gset nat → gset nat).

Lemma conn_dangling w a : ¬ allocated w a → conn w a = ∅.
Proof.
  unfold allocated, conn. intros H.
  rewrite lookup_ge_None_2; [done | lia].
Qed.

Lemma conn_allocated w a b : b ∈ conn w a → allocated w a.
Proof.
  intros H. destruct (decide (a < length (nodes w))) as [|Hn]; [done|].
  rewrite conn_dangling in H by done. set_solver.
Qed.

Lemma length_update a f w :
  length (nodes (update_connections a f w)) = length (nodes w).
Proof. unfold update_connections; simpl. by rewrite length_alter. Qed.

Lemma allocated_update a f w b :
  allocated (update_connections a f w) b ↔ allocated w b.
Proof. unfold allocated. by rewrite length_update. Qed.

Lemma conn_update_eq a f w :
  allocated w a → conn (update_connections a f w) a = f (conn w a).
Proof.
  unfold allocated, conn, update_connections; simpl. intros H.
  rewrite list_lookup_alter_eq.
  destruct (lookup_lt_is_Some_2 _ _ H) as [n ->]. done.
Qed.

Lemma conn_update_ne a f w b :
  a ≠ b → conn (update_connections a f w) b = conn w b.
Proof.
  unfold conn, update_connections; simpl. intros H.
  by rewrite list_lookup_alter_ne.
Qed.

Lemma uid_update a f w b : uid (update_connections a f w) b = uid w b.
Proof.
  unfold uid, update_connections; simpl.
  destruct (decide (a = b)) as [->|H].
  - rewrite list_lookup_alter_eq. by destruct (nodes w !! b).
  - by rewrite list_lookup_alter_ne.
Qed.

Lemma coords_update a f w b : coords (update_connections a f w) b = coords w b.
Proof.
  unfold coords, update_connections; simpl.
  destruct (decide (a = b)) as [->|H].
  - rewrite list_lookup_alter_eq. by destruct (nodes w !! b).
  - by rewrite list_lookup_alter_ne.
Qed.

End Views.

(** ** The point graph: [add_connection], [remove_connection], [Node] *)

Section Graph.

Implicit Types (w : World) (a b c : nat).

Definition symmetric (w : World) : Prop := ∀ a b, b ∈ conn w a → a ∈ conn w b.
Definition irreflexive (w : World) : Prop := ∀ a, a ∉ conn w a.

(** The stores the graph operations lead to. *)
Definition alloc_node (x y : float64) (w : World) : World :=
  mkWorld (nodes w ++ [mkNode [x; y] ∅ (current_id w + 1)]) (current_id w + 1)
          (triangles w) (cache w) (random_outputs w) (random_calls w) (screen w).
Definition connect (a b : nat) (w : World) : World :=
  update_connections b (λ s, s ∪ {[a]}) (update_connections a (λ s, s ∪ {[b]}) w).
Definition disconnect (a b : nat) (w : World) : World :=
  update_connections b (λ s, s ∖ {[a]}) (update_connections a (λ s, s ∖ {[b]}) w).

Lemma Node_init_run x y w :
  Node_init x y w = (Ok (length (nodes w)), alloc_node x y w).
Proof. reflexivity. Qed.

Lemma add_connection_self a w :
  add_connection a a w = (Raise (AssertionError msg_self_connection), w).
Proof. unfold add_connection. by rewrite decide_True. Qed.

Lemma add_connection_run a b w :
  a ≠ b →
  add_connection a b w = (Ok tt, if decide (b ∈ conn w a) then w else connect a b w).
Proof.
  intros Hab. unfold add_connection. rewrite decide_False by congruence.
  unfold bind, has_connection, gets.
  destruct (decide (b ∈ conn w a)) as [Hin|Hin].
  - by rewrite bool_decide_eq_true_2.
  - by rewrite bool_decide_eq_false_2.
Qed.

Lemma remove_connection_absent a b w :
  b ∉ conn w a →
  remove_connection a b w = (Raise (ValueError msg_no_connection), w).
Proof.
  intros Hin. unfold remove_connection, bind, has_connection, gets.
  by rewrite bool_decide_eq_false_2.
Qed.

Lemma remove_connection_run a b w :
  a ≠ b → b ∈ conn w a → a ∈ conn w b →
  remove_connection a b w = (Ok tt, disconnect a b w).
Proof.
  intros Hab Hb Ha. unfold remove_connection, bind, has_connection, gets.
  rewrite bool_decide_eq_true_2 by done.
  unfold set_remove at 1. rewrite decide_True by done.
  unfold set_remove. rewrite conn_update_ne by done.
  by rewrite decide_True.
Qed.

(** A one-sided edge: the first removal succeeds, the second raises
    [KeyError], and the first stays done. *)
Lemma remove_connection_one_sided a b w :
  b ∈ conn w a → a ∉ conn (update_connections a (λ s, s ∖ {[b]}) w) b →
  remove_connection a b w =
    (Raise (KeyError a), update_connections a (λ s, s ∖ {[b]}) w).
Proof.
  intros Hb Ha. unfold remove_connection, bind, has_connection, gets.
  rewrite bool_decide_eq_true_2 by done.
  unfold set_remove at 1. rewrite decide_True by done.
  unfold set_remove. by rewrite decide_False.
Qed.

Lemma conn_alloc_node x y w c : conn (alloc_node x y w) c = conn w c.
Proof.
  unfold conn, alloc_node; simpl.
  destruct (decide (c < length (nodes w))) as [Hlt|Hge].
  - by rewrite lookup_app_l.
  - rewrite lookup_app_r by lia.
    rewrite (lookup_ge_None_2 (nodes w)) by lia.
    by destruct (c - length (nodes w)) as [|k].
Qed.

Lemma length_alloc_node x y w :
  length (nodes (alloc_node x y w)) = S (length (nodes w)).
Proof. unfold alloc_node; simpl. rewrite length_app; simpl. lia. Qed.

Lemma uid_alloc_node_old x y w a :
  allocated w a → uid (alloc_node x y w) a = uid w a.
Proof. unfold allocated, uid, alloc_node; simpl. intros. by rewrite lookup_app_l. Qed.

Lemma uid_alloc_node_new x y w :
  uid (alloc_node x y w) (length (nodes w)) = (current_id w + 1)%Z.
Proof.
  unfold uid, alloc_node; simpl. rewrite lookup_app_r by lia.
  by rewrite Nat.sub_diag.
Qed.

Lemma coords_alloc_node_old x y w a :
  allocated w a → coords (alloc_node x y w) a = coords w a.
Proof. unfold allocated, coords, alloc_node; simpl. intros. by rewrite lookup_app_l. Qed.

Lemma coords_alloc_node_new x y w :
  coords (alloc_node x y w) (length (nodes w)) = [x; y].
Proof.
  unfold coords, alloc_node; simpl. rewrite lookup_app_r by lia.
  by rewrite Nat.sub_diag.
Qed.

Lemma length_connect a b w : length (nodes (connect a b w)) = length (nodes w).
Proof. unfold connect. by rewrite !length_update. Qed.

Lemma length_disconnect a b w : length (nodes (disconnect a b w)) = length (nodes w).
Proof. unfold disconnect. by rewrite !length_update. Qed.

Lemma uid_connect a b w c : uid (connect a b w) c = uid w c.
Proof. unfold connect. by rewrite !uid_update. Qed.

Lemma uid_disconnect a b w c : uid (disconnect a b w) c = uid w c.
Proof. unfold disconnect. by rewrite !uid_update. Qed.

Lemma coords_connect a b w c : coords (connect a b w) c = coords w c.
Proof. unfold connect. by rewrite !coords_update. Qed.

Lemma coords_disconnect a b w c : coords (disconnect a b w) c = coords w c.
Proof. unfold disconnect. by rewrite !coords_update. Qed.

Lemma conn_connect a b w c :
  a ≠ b → allocated w a → allocated w b →
  conn (connect a b w) c =
    if decide (c = a) then conn w a ∪ {[b]}
    else if decide (c = b) then conn w b ∪ {[a]} else conn w c.
Proof.
  intros Hab Ha Hb. unfold connect.
  destruct (decide (c = a)) as [->|Hca].
  - rewrite conn_update_ne by congruence. by rewrite conn_update_eq.
  - destruct (decide (c = b)) as [->|Hcb].
    + rewrite conn_update_eq by (by apply allocated_update).
      by rewrite conn_update_ne.
    + by rewrite !conn_update_ne by congruence.
Qed.

Lemma conn_disconnect a b w c :
  a ≠ b → allocated w a → allocated w b →
  conn (disconnect a b w) c =
    if decide (c = a) then conn w a ∖ {[b]}
    else if decide (c = b) then conn w b ∖ {[a]} else conn w c.
Proof.
  intros Hab Ha Hb. unfold disconnect.
  destruct (decide (c = a)) as [->|Hca].
  - rewrite conn_update_ne by congruence. by rewrite conn_update_eq.
  - destruct (decide (c = b)) as [->|Hcb].
    + rewrite conn_update_eq by (by apply allocated_update).
      by rewrite conn_update_ne.
    + by rewrite !conn_update_ne by congruence.
Qed.

Lemma symmetric_alloc_node x y w : symmetric w → symmetric (alloc_node x y w).
Proof. intros H a b. rewrite !conn_alloc_node. apply H. Qed.

Lemma irreflexive_alloc_node x y w : irreflexive w → irreflexive (alloc_node x y w).
Proof. intros H a. rewrite conn_alloc_node. apply H. Qed.

Lemma symmetric_connect a b w :
  a ≠ b → allocated w a → allocated w b →
  symmetric w → symmetric (connect a b w).
Proof.
  intros Hab Ha Hb Hs x y. rewrite !conn_connect by done.
  specialize (Hs x y). repeat destruct (decide _); simplify_eq; set_solver.
Qed.

Lemma irreflexive_connect a b w :
  a ≠ b → allocated w a → allocated w b →
  irreflexive w → irreflexive (connect a b w).
Proof.
  intros Hab Ha Hb Hi x. rewrite conn_connect by done.
  specialize (Hi x). repeat destruct (decide _); simplify_eq; set_solver.
Qed.

Lemma symmetric_disconnect a b w :
  a ≠ b → allocated w a → allocated w b →
  symmetric w → symmetric (disconnect a b w).
Proof.
  intros Hab Ha Hb Hs x y. rewrite !conn_disconnect by done.
  specialize (Hs x y). repeat destruct (decide _); simplify_eq; set_solver.
Qed.

Lemma irreflexive_disconnect a b w :
  a ≠ b → allocated w a → allocated w b →
  irreflexive w → irreflexive (disconnect a b w).
Proof.
  intros Hab Ha Hb Hi x. rewrite conn_disconnect by done.
  specialize (Hi x). repeat destruct (decide _); simplify_eq; set_solver.
Qed.

End Graph.

(** ** The displacement rule *)

Section Displacement.

(** On two arrays of shape (2,) the function returns: none of its
    [raise] statements is reached. *)
Lemma random_perpendicular_point_returns (start end_ : ndarray) roughtness rnd :
  shape start = 2 → shape end_ = 2 →
  ∃ x y, random_perpendicular_point start end_ roughtness rnd = Ok [x; y].
Proof.
  destruct start as [|sx [|sy [|]]]; try done.
  destruct end_ as [|ex [|ey [|]]]; try done.
  intros _ _. unfold random_perpendicular_point; simpl. eauto.
Qed.

(** C2 (the code does not do what the claim and the docstring say): for
    identical [start] and [end] the function raises nothing; whatever
    the coordinates, the roughness and the draw, it returns the array
    [[nan, nan]].  The handler of [ZeroDivisionError] is dead code, since
    numpy's division by a zero norm yields [nan] and a warning. *)
Theorem random_perpendicular_point_identical (x y roughtness rnd : float64) :
  random_perpendicular_point [x; y] [x; y] roughtness rnd = Ok [nan; nan].
Proof.
  unfold random_perpendicular_point; simpl.
  unfold linalg_norm, dot; simpl.
  destruct (fsub_diag x) as [-> | ->], (fsub_diag y) as [-> | ->]; reflexivity.
Qed.

(** C7, as stated, fails: the points (0, 0) and (2^-600, 0) are distinct,
    the squared length 2^-1200 underflows to 0, the direction is
    [0 / 0] and the result is [[nan, nan]], not the midpoint
    (2^-601, 0). *)
Lemma roughness_zero_underflow_counterexample :
  [zero; zero] ≠ [ldexp 1 (-600); zero]
  ∧ segment_midpoint [zero; zero] [ldexp 1 (-600); zero] = [ldexp 1 (-601); zero]
  ∧ random_perpendicular_point [zero; zero] [ldexp 1 (-600); zero] zero lit_0_5
    = Ok [nan; nan].
Proof. split; [discriminate | split; vm_compute; reflexivity]. Qed.

(** C7, amended: when the computed direction [segment / norm] and the
    floor quotient [norm // 2.3] are finite (the computed length is then
    neither zero nor infinite nor NaN), roughness 0 gives the midpoint
    [(start + end) / 2] for every finite draw, up to the sign of a zero
    coordinate. *)
Theorem roughness_zero_is_midpoint (sx sy ex ey roughtness rnd : float64) :
  let norm := linalg_norm (arr_sub [ex; ey] [sx; sy]) in
  is_zero roughtness = true →
  is_finite rnd = true →
  is_finite (fdiv (fsub ex sx) norm) = true →
  is_finite (fdiv (fsub ey sy) norm) = true →
  is_finite (floor_divide norm lit_2_3) = true →
  ∃ px py,
    random_perpendicular_point [sx; sy] [ex; ey] roughtness rnd = Ok [px; py]
    ∧ same_number px (item (segment_midpoint [sx; sy] [ex; ey]) 0)
    ∧ same_number py (item (segment_midpoint [sx; sy] [ex; ey]) 1).
Proof.
  intros norm Hr Hrnd Hux Huy Hq.
  unfold random_perpendicular_point; simpl.
  fold norm.
  set (alpha := fmul (floor_divide norm lit_2_3) roughtness).
  set (displacement := uniform (fneg alpha) alpha rnd).
  assert (Ha : is_zero alpha = true).
  { unfold alpha. destruct roughtness; try done. by apply fmul_zero_r. }
  assert (Hd : is_zero displacement = true).
  { unfold displacement, uniform. apply fadd_zero; [by apply fneg_zero|].
    pose proof (fsub_zero alpha (fneg alpha) Ha (fneg_zero _ Ha)) as Hz.
    destruct (fsub alpha (fneg alpha)); try done. by apply fmul_zero_l. }
  destruct displacement as [sd| | |]; try done.
  eexists _, _. split; [reflexivity|].
  split; apply fadd_zero_l_same, fmul_zero_r.
  - unfold item; simpl. by destruct (fdiv (fsub ey sy) norm).
  - done.
Qed.

(** The amended C7 at the points (0, 0) and (4, 0), whose midpoint is
    (2, 0). *)
Lemma roughness_zero_is_midpoint_witness :
  ∃ px py,
    random_perpendicular_point [zero; zero] [of_Z 4; zero] zero lit_0_5 = Ok [px; py]
    ∧ same_number px (of_Z 2) ∧ same_number py zero.
Proof.
  apply (roughness_zero_is_midpoint zero zero (of_Z 4) zero zero lit_0_5);
    vm_compute; reflexivity.
Defined.

End Displacement.

(** ** The work queue *)

Section Queue.

Implicit Types (q : FIFO) (v : value) (w : World).

Definition is_triangle (v : value) : Prop := ∃ t, v = VTriangle t.

Lemma dequeue_cons v (l : list value) : dequeue (mkFIFO (v :: l)) = Ok (v, mkFIFO l).
Proof. reflexivity. Qed.

Lemma dequeue_empty : dequeue (mkFIFO []) = Raise (IndexError msg_empty_queue).
Proof. reflexivity. Qed.

Lemma enqueue_single q v : items (enqueue q v false) = items q ++ [v].
Proof. reflexivity. Qed.

Lemma enqueue_list q (l : list value) : items (enqueue q (VList l) true) = items q ++ l.
Proof. reflexivity. Qed.

(** C9: with [is_list=True] an item that is not a list is appended as one
    element; dequeuing from the queue that held nothing else returns
    that item. *)
Theorem enqueue_is_list_non_list q v :
  isinstance_list v = false →
  enqueue q v true = mkFIFO (items q ++ [v])
  ∧ dequeue (enqueue FIFO_init v true) = Ok (v, FIFO_init).
Proof.
  intros Hv. unfold enqueue. rewrite Hv. simpl. done.
Qed.

(** C9 on a tuple: [enqueue((1, 2), is_list=True)] keeps the tuple whole. *)
Lemma enqueue_is_list_non_list_witness :
  enqueue (mkFIFO [VInt 7]) (VTuple [VInt 1; VInt 2]) true
    = mkFIFO ([VInt 7] ++ [VTuple [VInt 1; VInt 2]])
  ∧ dequeue (enqueue FIFO_init (VTuple [VInt 1; VInt 2]) true)
    = Ok (VTuple [VInt 1; VInt 2], FIFO_init).
Proof.
  apply (enqueue_is_list_non_list (mkFIFO [VInt 7]) (VTuple [VInt 1; VInt 2])).
  reflexivity.
Defined.

(** What a frame leaves on the screen: one polygon per queued triangle. *)
Definition polygon_of (w : World) (v : value) : list ndarray :=
  match v with VTriangle t => polygon w t | _ => [] end.

(** A store that differs from [w] by the screen only. *)
Definition with_screen (s : list (list ndarray)) (w : World) : World :=
  mkWorld (nodes w) (current_id w) (triangles w) (cache w)
          (random_outputs w) (random_calls w) s.

Lemma render_loop_rotates (front back : list value) w :
  Forall is_triangle front →
  render_loop (length front) (mkFIFO (front ++ back)) w
  = (Ok (mkFIFO (back ++ front)),
     with_screen (screen w ++ map (polygon_of w) front) w).
Proof.
  revert back w. induction front as [|v front IH]; intros back w Hall.
  - simpl. rewrite !app_nil_r. by destruct w.
  - apply Forall_cons in Hall as [[t ->] Hall]. simpl.
    unfold bind at 1. unfold render_body, bind at 1. simpl.
    replace (enqueue (mkFIFO (front ++ back)) (VTriangle t) false)
      with (mkFIFO (front ++ (back ++ [VTriangle t])))
      by (unfold enqueue; simpl; by rewrite <- app_assoc).
    rewrite IH by done. simpl. f_equal.
    + by rewrite <- app_assoc.
    + unfold with_screen; simpl. by rewrite <- app_assoc.
Qed.

(** C6: a frame ([size()] rounds of dequeue, draw, re-enqueue, the size
    being read once) returns the queue as it was, same items in the same
    order; the store changes by the polygons drawn only. *)
Theorem render_frame_keeps_queue q w :
  Forall is_triangle (items q) →
  render_frame q w
  = (Ok q, with_screen (screen w ++ map (polygon_of w) (items q)) w).
Proof.
  intros Hall. unfold render_frame, size. destruct q as [l]; simpl in *.
  pose proof (render_loop_rotates l [] w Hall) as H.
  by rewrite app_nil_r in H.
Qed.

Lemma render_frame_keeps_queue_witness :
  let w := mkWorld [] 0 [mkTriangle 0 1 2; mkTriangle 3 1 4] ∅ (λ _, zero) 0 [] in
  let q := mkFIFO [VTriangle 1; VTriangle 0] in
  render_frame q w = (Ok q, with_screen (screen w ++ map (polygon_of w) (items q)) w).
Proof.
  intros w q. apply (render_frame_keeps_queue q w).
  repeat constructor; eexists; reflexivity.
Defined.

End Queue.

(** ** Well-formed stores *)

Section Well_formed.

Implicit Types (w : World) (a b c m : nat) (k : list Z).

(** The invariant of the point graph: adjacency is symmetric, no node is
    adjacent to itself, every node has two coordinates. *)
Record graph_ok (w : World) : Prop := {
  g_sym : symmetric w;
  g_irr : irreflexive w;
  g_shape : ∀ a, allocated w a → shape (coords w a) = 2
}.

(** What every store built by the program satisfies: the graph
    invariant; the identifiers are distinct and at most the class
    counter; a cached midpoint is an existing node, younger than the two
    ends of its key and cached under that key only. *)
Record world_ok (w : World) : Prop := {
  ok_graph : graph_ok w;
  ok_uid_bound : ∀ a, allocated w a → (uid w a ≤ current_id w)%Z;
  ok_uid_inj : ∀ a b, allocated w a → allocated w b → uid w a = uid w b → a = b;
  ok_cache_alloc : ∀ k m, cache w !! k = Some m → allocated w m;
  ok_cache_inj : ∀ k1 k2 m, cache w !! k1 = Some m → cache w !! k2 = Some m → k1 = k2;
  ok_cache_young : ∀ k m i, cache w !! k = Some m → i ∈ k → (i < uid w m)%Z
}.

(** The edge [a]-[b] can be subdivided: it is in the graph, or its
    midpoint is cached already. *)
Definition cached (w : World) (a b : nat) : Prop :=
  is_Some (cache w !! cache_key w [a; b]).
Definition edge_ok (w : World) (a b : nat) : Prop := b ∈ conn w a ∨ cached w a b.

(** A valid triangle: three distinct existing nodes, each edge in the
    graph or already subdivided. *)
Definition valid_triangle (w : World) (T : Triangle) : Prop :=
  allocated w (node_a T) ∧ allocated w (node_b T) ∧ allocated w (node_c T)
  ∧ node_a T ≠ node_b T ∧ node_b T ≠ node_c T ∧ node_a T ≠ node_c T
  ∧ edge_ok w (node_a T) (node_b T)
  ∧ edge_ok w (node_b T) (node_c T)
  ∧ edge_ok w (node_a T) (node_c T).

Definition tri_ok (w : World) (t : nat) : Prop :=
  ∃ T, triangles w !! t = Some T ∧ valid_triangle w T.

(** [w'] comes after [w]: the objects of [w] are still there with their
    identifiers, the cache has grown, and an edge that could be
    subdivided still can. *)
Record extends (w w' : World) : Prop := {
  ext_alloc : length (nodes w) ≤ length (nodes w');
  ext_uid : ∀ a, allocated w a → uid w' a = uid w a;
  ext_cache : ∀ k m, cache w !! k = Some m → cache w' !! k = Some m;
  ext_tri : ∀ t T, triangles w !! t = Some T → triangles w' !! t = Some T;
  ext_edge : ∀ a b, allocated w a → allocated w b → edge_ok w a b → edge_ok w' a b
}.

Lemma extends_refl w : extends w w.
Proof. by split. Qed.

Lemma extends_allocated w w' a : extends w w' → allocated w a → allocated w' a.
Proof. intros [H _ _ _ _]. unfold allocated. lia. Qed.

Lemma extends_trans w1 w2 w3 : extends w1 w2 → extends w2 w3 → extends w1 w3.
Proof.
  intros H12 H23. split.
  - destruct H12, H23. lia.
  - intros a Ha. rewrite (ext_uid _ _ H23) by eauto using extends_allocated.
    by apply (ext_uid _ _ H12).
  - intros k m Hk. by apply (ext_cache _ _ H23), (ext_cache _ _ H12).
  - intros t T Ht. by apply (ext_tri _ _ H23), (ext_tri _ _ H12).
  - intros a b Ha Hb He. apply (ext_edge _ _ H23); eauto using extends_allocated.
    by apply (ext_edge _ _ H12).
Qed.

Lemma valid_triangle_extends w w' T :
  extends w w' → valid_triangle w T → valid_triangle w' T.
Proof.
  intros Hext (Ha & Hb & Hc & Hab & Hbc & Hac & Eab & Ebc & Eac).
  repeat split; eauto using extends_allocated; by apply (ext_edge _ _ Hext).
Qed.

Lemma tri_ok_extends w w' t : extends w w' → tri_ok w t → tri_ok w' t.
Proof.
  intros Hext (T & Ht & Hv). exists T. split.
  - by apply (ext_tri _ _ Hext).
  - by eapply valid_triangle_extends.
Qed.

(** Sorting a pair. *)
Lemma sorted_pair (x y : Z) :
  sorted [x; y] = if (x <=? y)%Z then [x; y] else [y; x].
Proof. reflexivity. Qed.

Lemma sorted_pair_comm (x y : Z) : sorted [x; y] = sorted [y; x].
Proof.
  rewrite !sorted_pair.
  destruct (Z.leb_spec x y), (Z.leb_spec y x); try done; try lia.
  by replace y with x by lia.
Qed.

Lemma elem_of_sorted_pair (i x y : Z) : i ∈ sorted [x; y] ↔ i = x ∨ i = y.
Proof. rewrite sorted_pair. destruct (x <=? y)%Z; set_solver. Qed.

Lemma cache_key_pair w a b : cache_key w [a; b] = sorted [uid w a; uid w b].
Proof. reflexivity. Qed.

(** The key is the unordered pair of the identifiers. *)
Lemma cache_key_comm w a b : cache_key w [a; b] = cache_key w [b; a].
Proof. rewrite !cache_key_pair. apply sorted_pair_comm. Qed.

Lemma sorted_pair_eq_iff (x y u v : Z) :
  sorted [x; y] = sorted [u; v] ↔ (x = u ∧ y = v) ∨ (x = v ∧ y = u).
Proof.
  rewrite !sorted_pair. split.
  - destruct (x <=? y)%Z, (u <=? v)%Z; intros [= -> ->]; auto.
  - intros [[-> ->]|[-> ->]]; [done|].
    destruct (Z.leb_spec v u), (Z.leb_spec u v); try done; try lia.
    by replace u with v by lia.
Qed.

(** Two pairs of nodes have the same key exactly when they have the
    same unordered pair of identifiers. *)
Lemma cache_key_same_ids w a b c d :
  cache_key w [c; d] = cache_key w [a; b]
  ↔ (uid w c = uid w a ∧ uid w d = uid w b) ∨ (uid w c = uid w b ∧ uid w d = uid w a).
Proof. rewrite !cache_key_pair. apply sorted_pair_eq_iff. Qed.

Lemma cache_key_extends w w' a b :
  extends w w' → allocated w a → allocated w b →
  cache_key w' [a; b] = cache_key w [a; b].
Proof.
  intros Hext Ha Hb. rewrite !cache_key_pair.
  by rewrite !(ext_uid _ _ Hext).
Qed.

Lemma cache_key_inj w a b c d :
  world_ok w → allocated w a → allocated w b → allocated w c → allocated w d →
  cache_key w [a; b] = cache_key w [c; d] → (a = c ∧ b = d) ∨ (a = d ∧ b = c).
Proof.
  intros Hok Ha Hb Hc Hd. rewrite !cache_key_pair, !sorted_pair.
  intros H.
  assert (Hcases : (uid w a = uid w c ∧ uid w b = uid w d)
                   ∨ (uid w a = uid w d ∧ uid w b = uid w c)).
  { destruct (uid w a <=? uid w b)%Z, (uid w c <=? uid w d)%Z;
      injection H; intros; auto. }
  destruct Hcases as [[H1 H2]|[H1 H2]]; [left|right];
    split; by apply (ok_uid_inj _ Hok).
Qed.

(** A cached midpoint is neither end of its edge. *)
Lemma cached_midpoint_fresh w a b m :
  world_ok w → cache w !! cache_key w [a; b] = Some m → m ≠ a ∧ m ≠ b.
Proof.
  intros Hok Hm.
  pose proof (ok_cache_young _ Hok _ _ (uid w a) Hm) as H1.
  pose proof (ok_cache_young _ Hok _ _ (uid w b) Hm) as H2.
  rewrite cache_key_pair, elem_of_sorted_pair in H1, H2.
  split; intros ->; [specialize (H1 (or_introl eq_refl))
                    | specialize (H2 (or_intror eq_refl))]; lia.
Qed.

End Well_formed.

(** ** The midpoint cache and [create_new_node] *)

Section Midpoint.

Implicit Types (w : World) (a b c m : nat) (k : list Z) (x y : float64).

Definition consume_random (w : World) : World :=
  mkWorld (nodes w) (current_id w) (triangles w) (cache w)
          (random_outputs w) (S (random_calls w)) (screen w).

(** The store after the [try] block of [create_new_node] went through:
    a node at [(x, y)] is created, connected to [a] and to [b], and the
    edge [a]-[b] is removed. *)
Definition split_edge (a b : nat) (x y : float64) (w : World) : World :=
  let new_node := length (nodes w) in
  disconnect a b
    (connect new_node b (connect new_node a (alloc_node x y (consume_random w)))).

Lemma cache_nodes_hit (func : M nat) (args : list nat) w m :
  cache w !! cache_key w args = Some m →
  cache_nodes func args w = (Ok m, w).
Proof. intros H. unfold cache_nodes, bind, gets. by rewrite H. Qed.

Lemma cache_nodes_miss (func : M nat) (args : list nat) w :
  cache w !! cache_key w args = None →
  cache_nodes func args w =
    match func w with
    | (Ok r, w') => (Ok r, cache_store (cache_key w args) r w')
    | (Raise e, w') => (Raise e, w')
    end.
Proof.
  intros H. unfold cache_nodes, bind, gets. rewrite H.
  by destruct (func w) as [[r|e] w'].
Qed.

Lemma create_new_node_func_disconnected a b w :
  b ∉ conn w a →
  create_new_node_func a b w = (Raise (ValueError msg_not_connected), w).
Proof.
  intros H. unfold create_new_node_func, bind, has_connection, gets.
  by rewrite bool_decide_eq_false_2.
Qed.

Lemma create_new_node_func_connected a b w :
  b ∈ conn w a →
  create_new_node_func a b w =
    match create_new_node_try a b w with
    | (Ok r, w') => (Ok r, w')
    | (Raise e, w') => (Raise (ValueError (FString prefix_creation e)), w')
    end.
Proof.
  intros H. unfold create_new_node_func, bind, has_connection, gets.
  by rewrite bool_decide_eq_true_2.
Qed.

Lemma allocated_alloc_node x y w a : allocated w a → allocated (alloc_node x y w) a.
Proof. unfold allocated. rewrite length_alloc_node. lia. Qed.

Lemma allocated_connect a b w c : allocated (connect a b w) c ↔ allocated w c.
Proof. unfold allocated. by rewrite length_connect. Qed.

Lemma allocated_disconnect a b w c : allocated (disconnect a b w) c ↔ allocated w c.
Proof. unfold allocated. by rewrite length_disconnect. Qed.

Lemma length_split_edge a b x y w :
  length (nodes (split_edge a b x y w)) = S (length (nodes w)).
Proof.
  unfold split_edge.
  by rewrite length_disconnect, !length_connect, length_alloc_node.
Qed.

Lemma uid_split_edge_old a b x y w c :
  allocated w c → uid (split_edge a b x y w) c = uid w c.
Proof.
  intros Hc. unfold split_edge.
  rewrite uid_disconnect, !uid_connect. by rewrite uid_alloc_node_old.
Qed.

Lemma uid_split_edge_new a b x y w :
  uid (split_edge a b x y w) (length (nodes w)) = (current_id w + 1)%Z.
Proof.
  unfold split_edge. rewrite uid_disconnect, !uid_connect.
  apply (uid_alloc_node_new x y (consume_random w)).
Qed.

Lemma coords_split_edge_old a b x y w c :
  allocated w c → coords (split_edge a b x y w) c = coords w c.
Proof.
  intros Hc. unfold split_edge.
  rewrite coords_disconnect, !coords_connect. by rewrite coords_alloc_node_old.
Qed.

Lemma coords_split_edge_new a b x y w :
  coords (split_edge a b x y w) (length (nodes w)) = [x; y].
Proof.
  unfold split_edge. rewrite coords_disconnect, !coords_connect.
  apply (coords_alloc_node_new x y (consume_random w)).
Qed.

Lemma conn_split_edge a b x y w c :
  a ≠ b → allocated w a → allocated w b →
  conn (split_edge a b x y w) c =
    if decide (c = length (nodes w)) then {[a; b]}
    else if decide (c = a) then (conn w a ∖ {[b]}) ∪ {[length (nodes w)]}
    else if decide (c = b) then (conn w b ∖ {[a]}) ∪ {[length (nodes w)]}
    else conn w c.
Proof.
  intros Hab Ha Hb. unfold split_edge.
  set (n := length (nodes w)).
  set (w1 := alloc_node x y (consume_random w)).
  assert (Hn : conn w n = ∅) by (apply conn_dangling; unfold allocated, n; lia).
  assert (Hna : n ≠ a) by (unfold allocated, n in *; lia).
  assert (Hnb : n ≠ b) by (unfold allocated, n in *; lia).
  assert (A1 : ∀ c, allocated w c → allocated w1 c)
    by (intros; by apply allocated_alloc_node).
  assert (N1 : allocated w1 n)
    by (unfold allocated, w1; rewrite length_alloc_node; simpl; unfold n; lia).
  assert (C1 : ∀ c, conn w1 c = conn w c)
    by (intros; unfold w1; by rewrite conn_alloc_node).
  rewrite conn_disconnect; [|done|by rewrite !allocated_connect; auto..].
  rewrite !(conn_connect n b); [|done|by rewrite ?allocated_connect; auto..].
  rewrite !(conn_connect n a); [|done|by auto..].
  rewrite !C1, Hn.
  repeat destruct (decide _); simplify_eq; set_solver.
Qed.

(** The [try] block goes through on a two-sided edge between two
    distinct existing nodes, once the displaced point is computed. *)
Lemma create_new_node_try_split a b x y w :
  a ≠ b → allocated w a → allocated w b →
  b ∈ conn w a → a ∈ conn w b →
  random_perpendicular_point (coords w a) (coords w b) lit_0_3
    (random_outputs w (random_calls w)) = Ok [x; y] →
  create_new_node_try a b w = (Ok (length (nodes w)), split_edge a b x y w).
Proof.
  intros Hab Ha Hb Hba Hab' Hp.
  set (n := length (nodes w)).
  set (w1 := alloc_node x y (consume_random w)).
  assert (Hna : n ≠ a) by (unfold allocated, n in *; lia).
  assert (Hnb : n ≠ b) by (unfold allocated, n in *; lia).
  assert (Hn : conn w n = ∅) by (apply conn_dangling; unfold allocated, n; lia).
  assert (A1 : ∀ c, allocated w c → allocated w1 c)
    by (intros; by apply allocated_alloc_node).
  assert (N1 : allocated w1 n)
    by (unfold allocated, w1; rewrite length_alloc_node; simpl; unfold n; lia).
  assert (C1 : ∀ c, conn w1 c = conn w c)
    by (intros; unfold w1; by rewrite conn_alloc_node).
  unfold create_new_node_try, bind at 1 2 3, gets, draw_perpendicular_point.
  rewrite Hp. fold (consume_random w).
  unfold bind at 1. rewrite Node_init_run. fold w1. simpl length. fold n.
  unfold bind at 1. rewrite (add_connection_run n a) by done.
  rewrite decide_False by (rewrite C1, Hn; set_solver).
  unfold bind at 1. rewrite (add_connection_run n b) by done.
  rewrite decide_False
    by (rewrite conn_connect by auto; rewrite decide_True by done;
        rewrite C1, Hn; set_solver).
  unfold bind. rewrite remove_connection_run; [done|done|..].
  - rewrite conn_connect by (rewrite ?allocated_connect; auto).
    rewrite decide_False by done. rewrite decide_False by done.
    rewrite conn_connect by auto.
    rewrite decide_False by done. rewrite decide_True by done.
    rewrite C1. set_solver.
  - rewrite conn_connect by (rewrite ?allocated_connect; auto).
    rewrite decide_False by done. rewrite decide_True by done.
    rewrite conn_connect by auto.
    rewrite decide_False by done. rewrite decide_False by done.
    rewrite C1. set_solver.
Qed.

(** When the displacement raises, the [try] block raises the same
    exception and has changed nothing. *)
Lemma create_new_node_try_raise a b e w :
  random_perpendicular_point (coords w a) (coords w b) lit_0_3
    (random_outputs w (random_calls w)) = Raise e →
  create_new_node_try a b w = (Raise e, w).
Proof.
  intros Hp.
  unfold create_new_node_try, bind at 1 2 3, gets, draw_perpendicular_point.
  by rewrite Hp.
Qed.

Lemma create_new_node_try_run a b w :
  a ≠ b → allocated w a → allocated w b →
  b ∈ conn w a → a ∈ conn w b →
  shape (coords w a) = 2 → shape (coords w b) = 2 →
  ∃ x y,
    random_perpendicular_point (coords w a) (coords w b) lit_0_3
      (random_outputs w (random_calls w)) = Ok [x; y]
    ∧ create_new_node_try a b w = (Ok (length (nodes w)), split_edge a b x y w).
Proof.
  intros Hab Ha Hb Hba Hab' Sa Sb.
  destruct (random_perpendicular_point_returns (coords w a) (coords w b) lit_0_3
              (random_outputs w (random_calls w)) Sa Sb) as (x & y & Hp).
  exists x, y. split; [done|]. by apply create_new_node_try_split.
Qed.

End Midpoint.

(** ** The graph operations keep stores well formed *)

Section Preservation.

Implicit Types (w : World) (a b c m : nat) (k : list Z) (x y : float64).

Lemma graph_ok_edge w a b :
  graph_ok w → b ∈ conn w a →
  a ≠ b ∧ allocated w a ∧ allocated w b ∧ a ∈ conn w b.
Proof.
  intros [Hs Hi _] Hb. pose proof (Hs _ _ Hb) as Ha.
  repeat split; eauto using conn_allocated.
  intros ->. by apply (Hi b).
Qed.

Lemma graph_ok_alloc_node x y w : graph_ok w → graph_ok (alloc_node x y w).
Proof.
  intros [Hs Hi Hsh]. split.
  - by apply symmetric_alloc_node.
  - by apply irreflexive_alloc_node.
  - intros a Ha. unfold allocated in Ha. rewrite length_alloc_node in Ha.
    destruct (decide (a = length (nodes w))) as [->|Hne].
    + by rewrite coords_alloc_node_new.
    + rewrite coords_alloc_node_old by (unfold allocated; lia).
      apply Hsh. unfold allocated; lia.
Qed.

Lemma graph_ok_connect a b w :
  a ≠ b → allocated w a → allocated w b → graph_ok w → graph_ok (connect a b w).
Proof.
  intros Hab Ha Hb [Hs Hi Hsh]. split.
  - by apply symmetric_connect.
  - by apply irreflexive_connect.
  - intros c Hc. rewrite coords_connect. apply Hsh. by apply allocated_connect in Hc.
Qed.

Lemma graph_ok_disconnect a b w :
  a ≠ b → allocated w a → allocated w b → graph_ok w → graph_ok (disconnect a b w).
Proof.
  intros Hab Ha Hb [Hs Hi Hsh]. split.
  - by apply symmetric_disconnect.
  - by apply irreflexive_disconnect.
  - intros c Hc. rewrite coords_disconnect. apply Hsh.
    by apply allocated_disconnect in Hc.
Qed.

Lemma graph_ok_split_edge a b x y w :
  a ≠ b → allocated w a → allocated w b →
  graph_ok w → graph_ok (split_edge a b x y w).
Proof.
  intros Hab Ha Hb Hok. unfold split_edge.
  set (n := length (nodes w)).
  set (w1 := alloc_node x y (consume_random w)).
  assert (Hna : n ≠ a) by (unfold allocated, n in *; lia).
  assert (Hnb : n ≠ b) by (unfold allocated, n in *; lia).
  assert (A1 : ∀ c, allocated w c → allocated w1 c)
    by (intros; by apply allocated_alloc_node).
  assert (N1 : allocated w1 n)
    by (unfold allocated, w1; rewrite length_alloc_node; simpl; unfold n; lia).
  assert (G1 : graph_ok w1).
  { apply graph_ok_alloc_node. destruct Hok as [Hs Hi Hsh]. by split. }
  apply graph_ok_disconnect; [done|by rewrite !allocated_connect; auto..|].
  apply graph_ok_connect; [done|by rewrite ?allocated_connect; auto..|].
  apply graph_ok_connect; auto.
Qed.

(** The store a cache miss leads to. *)
Definition miss_world (a b : nat) (x y : float64) (w : World) : World :=
  cache_store (cache_key w [a; b]) (length (nodes w)) (split_edge a b x y w).

Lemma nodes_miss_world a b x y w :
  nodes (miss_world a b x y w) = nodes (split_edge a b x y w).
Proof. reflexivity. Qed.

Lemma world_ok_miss a b x y w :
  a ≠ b → allocated w a → allocated w b →
  cache w !! cache_key w [a; b] = None →
  world_ok w → world_ok (miss_world a b x y w).
Proof.
  intros Hab Ha Hb Hmiss [Hg Hub Hui Hca Hci Hcy].
  set (n := length (nodes w)).
  assert (Hlen : ∀ c, allocated (miss_world a b x y w) c ↔ c < S n).
  { intros c. unfold allocated. by rewrite nodes_miss_world, length_split_edge. }
  assert (Hold : ∀ c, allocated w c → uid (miss_world a b x y w) c = uid w c).
  { intros c Hc. by apply uid_split_edge_old. }
  assert (Hnew : uid (miss_world a b x y w) n = (current_id w + 1)%Z).
  { apply uid_split_edge_new. }
  assert (Hcache : cache (miss_world a b x y w) = <[cache_key w [a; b] := n]> (cache w))
    by reflexivity.
  assert (Hcur : current_id (miss_world a b x y w) = (current_id w + 1)%Z)
    by reflexivity.
  assert (Huid : ∀ c, c < S n →
            (c = n ∧ uid (miss_world a b x y w) c = (current_id w + 1)%Z)
            ∨ (allocated w c ∧ uid (miss_world a b x y w) c = uid w c)).
  { intros c Hc. destruct (decide (c = n)) as [->|Hne]; [left; done|].
    right. assert (allocated w c) by (unfold allocated; fold n; lia). auto. }
  split.
  - destruct (graph_ok_split_edge a b x y w Hab Ha Hb Hg) as [Hs Hi Hsh].
    split; [exact Hs|exact Hi|].
    intros c Hc. apply Hsh. unfold allocated. rewrite length_split_edge.
    by apply Hlen in Hc.
  - intros c Hc. apply Hlen in Hc. rewrite Hcur.
    destruct (Huid c Hc) as [[_ ->]|[Hc' ->]]; [lia|].
    specialize (Hub c Hc'). lia.
  - intros c d Hc Hd. apply Hlen in Hc, Hd.
    destruct (Huid c Hc) as [[-> ->]|[Hc' ->]],
             (Huid d Hd) as [[-> ->]|[Hd' ->]]; try done.
    + intros E. specialize (Hub d Hd'). lia.
    + intros E. specialize (Hub c Hc'). lia.
    + by apply Hui.
  - intros k m. rewrite Hcache, lookup_insert. case_decide.
    + intros [= <-]. apply Hlen. lia.
    + intros Hk. apply Hlen. specialize (Hca _ _ Hk). unfold allocated in Hca.
      fold n in Hca. lia.
  - intros k1 k2 m. rewrite Hcache, !lookup_insert.
    repeat case_decide; subst; try done.
    + intros [= <-] Hk. specialize (Hca _ _ Hk). unfold allocated in Hca. lia.
    + intros Hk [= <-]. specialize (Hca _ _ Hk). unfold allocated in Hca. lia.
    + apply Hci.
  - intros k m i. rewrite Hcache, lookup_insert. case_decide.
    + intros [= <-] Hi. subst k. rewrite Hnew.
      rewrite cache_key_pair, elem_of_sorted_pair in Hi.
      destruct Hi as [-> | ->]; [specialize (Hub a Ha)|specialize (Hub b Hb)]; lia.
    + intros Hk Hi. rewrite Hold by eauto. eauto.
Qed.

Lemma extends_miss a b x y w :
  a ≠ b → allocated w a → allocated w b →
  cache w !! cache_key w [a; b] = None →
  extends w (miss_world a b x y w).
Proof.
  intros Hab Ha Hb Hmiss.
  set (n := length (nodes w)).
  assert (Hcache : cache (miss_world a b x y w) = <[cache_key w [a; b] := n]> (cache w))
    by reflexivity.
  assert (Hkey : ∀ c d, allocated w c → allocated w d →
            cache_key (miss_world a b x y w) [c; d] = cache_key w [c; d]).
  { intros c d Hc Hd. rewrite !cache_key_pair.
    unfold miss_world. change (uid (cache_store ?k ?r ?w') ?c) with (uid w' c).
    by rewrite !uid_split_edge_old. }
  split.
  - rewrite nodes_miss_world, length_split_edge. lia.
  - intros c Hc. by apply uid_split_edge_old.
  - intros k m Hk. rewrite Hcache, lookup_insert_ne; [done|]. congruence.
  - done.
  - intros c d Hc Hd [Hin|[m Hm]].
    + destruct (decide ((c = a ∧ d = b) ∨ (c = b ∧ d = a))) as [Hends|Hother].
      * right. unfold cached. rewrite Hkey, Hcache by done.
        destruct Hends as [[-> ->]|[-> ->]].
        -- rewrite lookup_insert_eq. eauto.
        -- rewrite (cache_key_comm w b a), lookup_insert_eq. eauto.
      * left. change (conn (miss_world a b x y w) c)
          with (conn (split_edge a b x y w) c).
        rewrite conn_split_edge by done. fold n.
        assert (c ≠ n) by (unfold allocated in Hc; fold n in Hc; lia).
        repeat destruct (decide _); simplify_eq; set_solver.
    + right. unfold cached. rewrite Hkey, Hcache by done.
      rewrite lookup_insert_ne by congruence. eauto.
Qed.

End Preservation.

(** ** [Triangle] construction *)

Section Triangles.

Implicit Types (w : World) (a b c m : nat) (k : list Z) (T : Triangle).

(** The store [add_connection a b] leads to when [a] and [b] differ. *)
Definition add_edge (a b : nat) (w : World) : World :=
  if decide (b ∈ conn w a) then w else connect a b w.

Definition add_triangle (T : Triangle) (w : World) : World :=
  mkWorld (nodes w) (current_id w) (triangles w ++ [T]) (cache w)
          (random_outputs w) (random_calls w) (screen w).

(** What [add_edge] changes: connections only, and only by adding. *)
Record grows (w w' : World) : Prop := {
  gr_length : length (nodes w') = length (nodes w);
  gr_uid : ∀ c, uid w' c = uid w c;
  gr_coords : ∀ c, coords w' c = coords w c;
  gr_conn : ∀ c, conn w c ⊆ conn w' c;
  gr_cache : cache w' = cache w;
  gr_current : current_id w' = current_id w
}.

Lemma grows_refl w : grows w w.
Proof. by split. Qed.

Lemma grows_trans w1 w2 w3 : grows w1 w2 → grows w2 w3 → grows w1 w3.
Proof.
  intros [L1 U1 C1 N1 K1 I1] [L2 U2 C2 N2 K2 I2]. split.
  - congruence.
  - intros c. by rewrite U2.
  - intros c. by rewrite C2.
  - intros c. specialize (N1 c). specialize (N2 c). set_solver.
  - congruence.
  - congruence.
Qed.

Lemma grows_add_edge a b w :
  a ≠ b → allocated w a → allocated w b → grows w (add_edge a b w).
Proof.
  intros Hab Ha Hb. unfold add_edge. case_decide; [apply grows_refl|].
  split; try done.
  - apply length_connect.
  - intros c. apply uid_connect.
  - intros c. apply coords_connect.
  - intros c. rewrite conn_connect by done.
    repeat destruct (decide _); simplify_eq; set_solver.
Qed.

Lemma conn_add_edge a b w :
  a ≠ b → allocated w a → allocated w b → symmetric w →
  b ∈ conn (add_edge a b w) a ∧ a ∈ conn (add_edge a b w) b.
Proof.
  intros Hab Ha Hb Hs. unfold add_edge. case_decide; [by auto|].
  rewrite !conn_connect by done.
  rewrite decide_True by done. rewrite decide_False by done.
  rewrite decide_True by done. set_solver.
Qed.

Lemma graph_ok_add_edge a b w :
  a ≠ b → allocated w a → allocated w b → graph_ok w → graph_ok (add_edge a b w).
Proof.
  intros Hab Ha Hb Hg. unfold add_edge. case_decide; [done|].
  by apply graph_ok_connect.
Qed.

Lemma grows_allocated w w' :
  grows w w' → ∀ c, allocated w' c ↔ allocated w c.
Proof. intros [L _ _ _ _ _] c. unfold allocated. by rewrite L. Qed.

Lemma grows_cache_key w w' (args : list nat) :
  grows w w' → cache_key w' args = cache_key w args.
Proof.
  intros [_ U _ _ _ _]. unfold cache_key. f_equal.
  apply map_ext. intros c. apply U.
Qed.

(** Adding connections keeps the rest of the invariant and loses nothing. *)
Lemma world_ok_grows w w' : grows w w' → graph_ok w' → world_ok w → world_ok w'.
Proof.
  intros Hgr Hg' [Hg Hub Hui Hca Hci Hcy].
  pose proof (grows_allocated _ _ Hgr) as Hal.
  destruct Hgr as [L U C N K I].
  split; [done|..]; rewrite ?K, ?I.
  - intros c Hc. rewrite U. apply Hub. by apply Hal.
  - intros c d Hc Hd. rewrite !U. apply Hui; by apply Hal.
  - intros k m Hk. apply Hal. eauto.
  - done.
  - intros k m i Hk Hi. rewrite U. eauto.
Qed.

Lemma extends_grows w w' : grows w w' → triangles w' = triangles w → extends w w'.
Proof.
  intros Hgr Ht. pose proof (grows_cache_key _ _ [] Hgr) as _.
  split.
  - destruct Hgr as [L _ _ _ _ _]. lia.
  - intros c _. by destruct Hgr.
  - intros k m. by destruct Hgr as [_ _ _ _ -> _].
  - by rewrite Ht.
  - intros c d _ _ [Hin|Hc]; [left|right].
    + destruct Hgr as [_ _ _ N _ _]. specialize (N c). set_solver.
    + unfold cached in *. rewrite (grows_cache_key _ _ _ Hgr).
      by destruct Hgr as [_ _ _ _ -> _].
Qed.

Lemma triangle_at_add_triangle T w :
  triangle_at (add_triangle T w) (length (triangles w)) = T.
Proof.
  unfold triangle_at, add_triangle; simpl.
  rewrite lookup_app_r by lia. by rewrite Nat.sub_diag.
Qed.

(** The constructor on three distinct nodes. *)
Lemma Triangle_init_run a b c w :
  a ≠ b → a ≠ c → b ≠ c →
  Triangle_init a b c w =
    (Ok (length (triangles w)),
     add_edge b c (add_edge a c (add_edge a b (add_triangle (mkTriangle a b c) w)))).
Proof.
  intros Hab Hac Hbc.
  unfold Triangle_init, bind at 1 2, gets, modify.
  fold (add_triangle (mkTriangle a b c) w).
  unfold bind at 1, create_edges, bind at 1, gets.
  rewrite triangle_at_add_triangle; simpl.
  unfold bind at 1. rewrite add_connection_run by done.
  fold (add_edge a b (add_triangle (mkTriangle a b c) w)).
  unfold bind at 1. rewrite add_connection_run by done.
  fold (add_edge a c (add_edge a b (add_triangle (mkTriangle a b c) w))).
  rewrite add_connection_run by done.
  reflexivity.
Qed.

(** The constructor fails on a repeated vertex, with the assertion of
    [add_connection]. *)
Lemma Triangle_init_repeated a c w :
  ∃ w', Triangle_init a a c w = (Raise (AssertionError msg_self_connection), w').
Proof.
  unfold Triangle_init, bind at 1 2, gets, modify.
  fold (add_triangle (mkTriangle a a c) w).
  unfold bind at 1, create_edges, bind at 1, gets.
  rewrite triangle_at_add_triangle; simpl.
  unfold bind at 1. rewrite add_connection_self. eauto.
Qed.

Lemma Triangle_init_ok a b c w :
  world_ok w → allocated w a → allocated w b → allocated w c →
  a ≠ b → a ≠ c → b ≠ c →
  ∃ w', Triangle_init a b c w = (Ok (length (triangles w)), w')
        ∧ world_ok w' ∧ extends w w' ∧ grows w w'
        ∧ triangles w' = triangles w ++ [mkTriangle a b c]
        ∧ b ∈ conn w' a ∧ c ∈ conn w' a ∧ c ∈ conn w' b.
Proof.
  intros Hok Ha Hb Hc Hab Hac Hbc.
  set (T := mkTriangle a b c).
  set (w0 := add_triangle T w).
  assert (G0 : grows w w0) by (by split).
  assert (Hg0 : graph_ok w0) by (destruct Hok as [[? ? ?] _ _ _ _ _]; by split).
  set (w1 := add_edge a b w0).
  assert (G1 : grows w0 w1) by (by apply grows_add_edge).
  assert (Hg1 : graph_ok w1) by (by apply graph_ok_add_edge).
  assert (A1 : ∀ d, allocated w d → allocated w1 d)
    by (intros d Hd; by apply (grows_allocated _ _ G1)).
  set (w2 := add_edge a c w1).
  assert (G2 : grows w1 w2) by (apply grows_add_edge; auto).
  assert (Hg2 : graph_ok w2) by (apply graph_ok_add_edge; auto).
  assert (A2 : ∀ d, allocated w d → allocated w2 d)
    by (intros d Hd; apply (grows_allocated _ _ G2); auto).
  set (w3 := add_edge b c w2).
  assert (G3 : grows w2 w3) by (apply grows_add_edge; auto).
  assert (Hg3 : graph_ok w3) by (apply graph_ok_add_edge; auto).
  assert (G : grows w w3) by eauto using grows_trans.
  exists w3. split; [by apply Triangle_init_run|].
  split; [by apply (world_ok_grows w)|].
  assert (Ht : triangles w3 = triangles w ++ [T]).
  { unfold w3, w2, w1, add_edge. by repeat case_decide. }
  split.
  { apply (extends_trans w w0).
    - split; try done.
      intros t T' Ht'. simpl. by apply lookup_app_l_Some.
    - apply extends_grows; [eauto using grows_trans|].
      unfold w3, w2, w1, add_edge. by repeat case_decide. }
  split; [done|]. split; [done|].
  destruct (conn_add_edge a b w0 Hab Ha Hb (g_sym _ Hg0)) as [E1 _].
  destruct (conn_add_edge a c w1 Hac (A1 _ Ha) (A1 _ Hc) (g_sym _ Hg1)) as [E2 _].
  destruct (conn_add_edge b c w2 Hbc (A2 _ Hb) (A2 _ Hc) (g_sym _ Hg2)) as [E3 _].
  pose proof (gr_conn _ _ G2 a) as S2. pose proof (gr_conn _ _ G3 a) as S3.
  split; [by apply S3, S2|]. split; [by apply S3|done].
Qed.

End Triangles.

(** ** [create_new_node] and [subdivide] on well-formed stores *)

Section Subdivision.

Implicit Types (w : World) (a b c m : nat) (k : list Z) (T : Triangle).

Lemma create_new_node_miss_run a b w :
  graph_ok w → cache w !! cache_key w [a; b] = None → b ∈ conn w a →
  ∃ x y,
    random_perpendicular_point (coords w a) (coords w b) lit_0_3
      (random_outputs w (random_calls w)) = Ok [x; y]
    ∧ create_new_node a b w = (Ok (length (nodes w)), miss_world a b x y w).
Proof.
  intros Hg Hmiss Hin.
  destruct (graph_ok_edge w a b Hg Hin) as (Hab & Ha & Hb & Hin').
  destruct (create_new_node_try_run a b w Hab Ha Hb Hin Hin'
              (g_shape _ Hg _ Ha) (g_shape _ Hg _ Hb)) as (x & y & Hp & Hrun).
  exists x, y. split; [done|].
  unfold create_new_node. rewrite cache_nodes_miss by done.
  rewrite create_new_node_func_connected by done. by rewrite Hrun.
Qed.

Lemma create_new_node_ok a b w :
  world_ok w → allocated w a → allocated w b → a ≠ b → edge_ok w a b →
  ∃ m w', create_new_node a b w = (Ok m, w')
          ∧ world_ok w' ∧ extends w w'
          ∧ cache w' !! cache_key w [a; b] = Some m
          ∧ triangles w' = triangles w.
Proof.
  intros Hok Ha Hb Hab Hedge.
  destruct (cache w !! cache_key w [a; b]) as [m|] eqn:Hc.
  - exists m, w. split; [by apply cache_nodes_hit|].
    eauto using extends_refl.
  - destruct Hedge as [Hin|[m Hm]]; [|unfold cache_key in *; congruence].
    destruct (create_new_node_miss_run a b w (ok_graph _ Hok) Hc Hin)
      as (x & y & _ & Hrun).
    exists (length (nodes w)), (miss_world a b x y w).
    split; [done|]. split; [by apply world_ok_miss|].
    split; [by apply extends_miss|]. split; [|done].
    unfold miss_world, cache_store; simpl. apply lookup_insert_eq.
Qed.

Lemma triangle_at_lookup w t T : triangles w !! t = Some T → triangle_at w t = T.
Proof. intros H. unfold triangle_at. by rewrite H. Qed.

(** The three midpoints of a valid triangle are new to it and pairwise
    distinct. *)
Lemma midpoints_distinct w a b c D E F :
  world_ok w → allocated w a → allocated w b → allocated w c →
  a ≠ b → b ≠ c → a ≠ c →
  cache w !! cache_key w [a; b] = Some D →
  cache w !! cache_key w [b; c] = Some E →
  cache w !! cache_key w [a; c] = Some F →
  (D ≠ a ∧ D ≠ b) ∧ (E ≠ b ∧ E ≠ c) ∧ (F ≠ a ∧ F ≠ c)
  ∧ D ≠ E ∧ D ≠ F ∧ E ≠ F.
Proof.
  intros Hok Ha Hb Hc Hab Hbc Hac HD HE HF.
  split; [by apply (cached_midpoint_fresh w)|].
  split; [by apply (cached_midpoint_fresh w)|].
  split; [by apply (cached_midpoint_fresh w)|].
  repeat split.
  - intros ->. pose proof (ok_cache_inj _ Hok _ _ _ HD HE) as Hk.
    apply cache_key_inj in Hk; naive_solver.
  - intros ->. pose proof (ok_cache_inj _ Hok _ _ _ HD HF) as Hk.
    apply cache_key_inj in Hk; naive_solver.
  - intros ->. pose proof (ok_cache_inj _ Hok _ _ _ HE HF) as Hk.
    apply cache_key_inj in Hk; naive_solver.
Qed.

Lemma valid_triangle_connected w a b c :
  allocated w a → allocated w b → allocated w c →
  a ≠ b → b ≠ c → a ≠ c →
  b ∈ conn w a → c ∈ conn w b → c ∈ conn w a →
  valid_triangle w (mkTriangle a b c).
Proof. intros. repeat split; simpl; try done; by left. Qed.

Lemma subdivide_ok w t T :
  world_ok w → triangles w !! t = Some T → valid_triangle w T →
  ∃ D E F w1 w2 w3 w',
    create_new_node (node_a T) (node_b T) w = (Ok D, w1)
    ∧ create_new_node (node_b T) (node_c T) w1 = (Ok E, w2)
    ∧ create_new_node (node_a T) (node_c T) w2 = (Ok F, w3)
    ∧ subdivide t w =
        (Ok [length (triangles w); S (length (triangles w));
             S (S (length (triangles w))); S (S (S (length (triangles w))))], w')
    ∧ triangles w' =
        triangles w ++ [mkTriangle D (node_b T) E; mkTriangle (node_a T) D F;
                        mkTriangle F E (node_c T); mkTriangle D E F]
    ∧ world_ok w' ∧ extends w w'
    ∧ Forall (valid_triangle w')
        [mkTriangle D (node_b T) E; mkTriangle (node_a T) D F;
         mkTriangle F E (node_c T); mkTriangle D E F]
    ∧ E ∈ conn w' D ∧ F ∈ conn w' D ∧ F ∈ conn w' E.
Proof.
  intros Hok Ht Hv.
  destruct T as [A B C]; simpl in *.
  destruct Hv as (Ha & Hb & Hc & Hab & Hbc & Hac & Eab & Ebc & Eac); simpl in *.
  destruct (create_new_node_ok A B w Hok Ha Hb Hab Eab)
    as (D & w1 & R1 & Ok1 & X1 & K1 & T1).
  assert (Ha1 : allocated w1 A) by eauto using extends_allocated.
  assert (Hb1 : allocated w1 B) by eauto using extends_allocated.
  assert (Hc1 : allocated w1 C) by eauto using extends_allocated.
  destruct (create_new_node_ok B C w1 Ok1 Hb1 Hc1 Hbc (ext_edge _ _ X1 _ _ Hb Hc Ebc))
    as (E & w2 & R2 & Ok2 & X2 & K2 & T2).
  assert (X02 : extends w w2) by eauto using extends_trans.
  assert (Ha2 : allocated w2 A) by eauto using extends_allocated.
  assert (Hb2 : allocated w2 B) by eauto using extends_allocated.
  assert (Hc2 : allocated w2 C) by eauto using extends_allocated.
  destruct (create_new_node_ok A C w2 Ok2 Ha2 Hc2 Hac (ext_edge _ _ X02 _ _ Ha Hc Eac))
    as (F & w3 & R3 & Ok3 & X3 & K3 & T3).
  assert (X03 : extends w w3) by eauto using extends_trans.
  assert (X13 : extends w1 w3) by eauto using extends_trans.
  assert (Ha3 : allocated w3 A) by eauto using extends_allocated.
  assert (Hb3 : allocated w3 B) by eauto using extends_allocated.
  assert (Hc3 : allocated w3 C) by eauto using extends_allocated.
  assert (KD : cache w3 !! cache_key w3 [A; B] = Some D).
  { rewrite (cache_key_extends w w3) by done. by apply (ext_cache _ _ X13). }
  assert (KE : cache w3 !! cache_key w3 [B; C] = Some E).
  { rewrite (cache_key_extends w1 w3) by done. by apply (ext_cache _ _ X3). }
  assert (KF : cache w3 !! cache_key w3 [A; C] = Some F).
  { by rewrite (cache_key_extends w2 w3) by done. }
  destruct (midpoints_distinct w3 A B C D E F Ok3 Ha3 Hb3 Hc3 Hab Hbc Hac KD KE KF)
    as ((DA & DB) & (EB & EC) & (FA & FC) & DE & DF & EF).
  assert (Hd3 : allocated w3 D) by eauto using ok_cache_alloc.
  assert (He3 : allocated w3 E) by eauto using ok_cache_alloc.
  assert (Hf3 : allocated w3 F) by eauto using ok_cache_alloc.
  destruct (Triangle_init_ok D B E w3) as (w4 & R4 & Ok4 & X4 & G4 & T4 & C4a & C4b & C4c);
    auto.
  pose proof (grows_allocated _ _ G4) as A4.
  destruct (Triangle_init_ok A D F w4) as (w5 & R5 & Ok5 & X5 & G5 & T5 & C5a & C5b & C5c);
    try apply A4; auto.
  pose proof (grows_allocated _ _ G5) as A5.
  destruct (Triangle_init_ok F E C w5) as (w6 & R6 & Ok6 & X6 & G6 & T6 & C6a & C6b & C6c);
    try apply A5; try apply A4; auto.
  pose proof (grows_allocated _ _ G6) as A6.
  destruct (Triangle_init_ok D E F w6) as (w7 & R7 & Ok7 & X7 & G7 & T7 & C7a & C7b & C7c);
    try apply A6; try apply A5; try apply A4; auto.
  pose proof (grows_allocated _ _ G7) as A7.
  assert (Al : ∀ d, allocated w3 d → allocated w7 d).
  { intros d Hd. apply A7, A6, A5, A4, Hd. }
  exists D, E, F, w1, w2, w3, w7.
  split; [done|]. split; [done|]. split; [done|].
  assert (L3 : triangles w3 = triangles w) by congruence.
  split.
  { unfold subdivide, bind at 1, gets. rewrite (triangle_at_lookup _ _ _ Ht); simpl.
    unfold bind at 1. rewrite R1. unfold bind at 1. rewrite R2.
    unfold bind at 1. rewrite R3. unfold bind at 1. rewrite R4.
    unfold bind at 1. rewrite R5. unfold bind at 1. rewrite R6.
    unfold bind at 1. rewrite R7. unfold ret.
    rewrite T6, T5, T4, L3, !length_app; simpl.
    repeat f_equal; lia. }
  split.
  { rewrite T7, T6, T5, T4, L3, <- !app_assoc. reflexivity. }
  split; [done|].
  split; [eauto 10 using extends_trans|].
  assert (S5 : ∀ d, conn w4 d ⊆ conn w7 d).
  { intros d. pose proof (gr_conn _ _ G5 d). pose proof (gr_conn _ _ G6 d).
    pose proof (gr_conn _ _ G7 d). set_solver. }
  assert (S6 : ∀ d, conn w5 d ⊆ conn w7 d).
  { intros d. pose proof (gr_conn _ _ G6 d). pose proof (gr_conn _ _ G7 d).
    set_solver. }
  assert (S7 : ∀ d, conn w6 d ⊆ conn w7 d).
  { intros d. pose proof (gr_conn _ _ G7 d). set_solver. }
  split.
  { repeat apply Forall_cons_2; [..|apply Forall_nil_2].
    - apply valid_triangle_connected; auto; by apply S5.
    - apply valid_triangle_connected; auto; by apply S6.
    - apply valid_triangle_connected; auto; by apply S7.
    - apply valid_triangle_connected; auto. }
  done.
Qed.

End Subdivision.

(** ** The expansion loop *)

Section Expansion.

Implicit Types (w : World) (q : FIFO) (v : value) (t : nat).

(** Every queued value is a triangle that can be subdivided. *)
Definition queue_ok (w : World) (q : FIFO) : Prop :=
  Forall (λ v, ∃ t, v = VTriangle t ∧ tri_ok w t) (items q).

Lemma queue_ok_extends w w' q : extends w w' → queue_ok w q → queue_ok w' q.
Proof.
  intros Hext Hq. unfold queue_ok. eapply Forall_impl; [exact Hq|].
  intros v (t & -> & Ht). eauto using tri_ok_extends.
Qed.

Lemma expansion_body_ok w v (rest : list value) :
  world_ok w → queue_ok w (mkFIFO (v :: rest)) →
  ∃ w',
    expansion_body (mkFIFO (v :: rest)) w
    = (Ok (v, mkFIFO (rest ++ map VTriangle (seq (length (triangles w)) 4))), w')
    ∧ world_ok w' ∧ extends w w'
    ∧ queue_ok w' (mkFIFO (rest ++ map VTriangle (seq (length (triangles w)) 4)))
    ∧ length (triangles w') = length (triangles w) + 4.
Proof.
  intros Hok Hq. unfold queue_ok in Hq; simpl in Hq.
  apply Forall_cons in Hq as [(t & -> & T & Ht & Hv) Hrest].
  destruct (subdivide_ok w t T Hok Ht Hv)
    as (D & E & F & w1 & w2 & w3 & w' & _ & _ & _ & Hrun & Htri & Hok' & Hext & Hch & _).
  exists w'. split.
  { unfold expansion_body, bind at 1. simpl. unfold bind. by rewrite Hrun. }
  split; [done|]. split; [done|]. split.
  - unfold queue_ok; simpl. apply Forall_app. split.
    + by apply (queue_ok_extends w w' (mkFIFO rest)).
    + set (L := length (triangles w)) in *.
      assert (Hlook : ∀ i T', [mkTriangle D (node_b T) E; mkTriangle (node_a T) D F;
                               mkTriangle F E (node_c T); mkTriangle D E F] !! i = Some T' →
                tri_ok w' (L + i)).
      { intros i T' Hi. exists T'. split.
        - rewrite Htri, lookup_app_r by (unfold L; lia).
          by replace (L + i - length (triangles w)) with i by (unfold L; lia).
        - eapply Forall_lookup_1; eauto. }
      repeat apply Forall_cons_2; [..|apply Forall_nil_2]; eexists; (split; [done|]).
      * replace L with (L + 0) by lia. by eapply Hlook.
      * replace (S L) with (L + 1) by lia. by eapply Hlook.
      * replace (S (S L)) with (L + 2) by lia. by eapply Hlook.
      * replace (S (S (S L))) with (L + 3) by lia. by eapply Hlook.
  - rewrite Htri, length_app. simpl. lia.
Qed.

Lemma expansion_loop_ok (n : nat) : ∀ w q,
  world_ok w → queue_ok w q → 0 < length (items q) →
  ∃ w' subdivided q',
    expansion_loop n q w = (Ok (subdivided, q'), w')
    ∧ world_ok w' ∧ queue_ok w' q' ∧ extends w w'
    ∧ length subdivided = n
    ∧ subdivided ++ items q'
      = items q ++ map VTriangle (seq (length (triangles w)) (4 * n)).
Proof.
  induction n as [|n IH]; intros w q Hok Hq Hlen.
  - exists w, [], q. simpl. rewrite app_nil_r.
    split; [done|]. split; [done|]. split; [done|].
    split; [apply extends_refl|done].
  - destruct q as [[|v rest]]; simpl in Hlen; [lia|].
    destruct (expansion_body_ok w v rest Hok Hq) as (w1 & Hrun & Hok1 & Hext1 & Hq1 & Hlen1).
    destruct (IH w1 _ Hok1 Hq1)
      as (w' & subdivided & q' & Hloop & Hok' & Hq' & Hext' & Hl & Hhist).
    { simpl. rewrite length_app. simpl. lia. }
    exists w', (v :: subdivided), q'. split.
    { simpl. unfold bind at 1. rewrite Hrun. cbn [fst snd].
      unfold bind. by rewrite Hloop. }
    split; [done|]. split; [done|]. split; [eauto using extends_trans|].
    split; [simpl; lia|].
    change ((v :: subdivided) ++ items q') with (v :: (subdivided ++ items q')).
    rewrite Hhist, Hlen1. cbn [items].
    replace (4 * S n) with (4 + 4 * n) by lia.
    rewrite seq_app, map_app, <- !app_assoc. reflexivity.
Qed.

(** [4^depth - 1] is a multiple of 3. *)
Lemma expansion_count_spec (depth : Z) :
  (0 ≤ depth)%Z → (3 * expansion_count depth = 4 ^ depth - 1)%Z ∧ (0 ≤ expansion_count depth)%Z.
Proof.
  intros Hd. unfold expansion_count.
  assert (H : ∃ m, (4 ^ depth - 1 = 3 * m)%Z ∧ (0 ≤ m)%Z).
  { revert depth Hd. apply natlike_ind.
    - exists 0%Z. split; [reflexivity|lia].
    - intros d Hd (m & Hm & Hm0). exists (4 * m + 1)%Z.
      rewrite Z.pow_succ_r by done. lia. }
  destruct H as (m & -> & Hm).
  replace (3 * m)%Z with (m * 3)%Z by lia.
  rewrite Z.div_mul by lia. lia.
Qed.

End Expansion.

(** ** The claims about the mesh *)

Section Claims.

Implicit Types (w : World) (a b c m : nat) (k : list Z) (T : Triangle).

Lemma world_ok_initial rnd : world_ok (initial_world rnd).
Proof.
  split; [split|..]; unfold allocated; simpl; try (intros; lia).
  - intros a b. unfold conn; simpl. set_solver.
  - intros a. unfold conn; simpl. set_solver.
  - intros k m. by rewrite lookup_empty.
  - intros k1 k2 m. by rewrite lookup_empty.
  - intros k m i. by rewrite lookup_empty.
Qed.

Lemma world_ok_alloc_node x y w : world_ok w → world_ok (alloc_node x y w).
Proof.
  intros [Hg Hub Hui Hca Hci Hcy].
  set (n := length (nodes w)).
  assert (Hlen : ∀ c, allocated (alloc_node x y w) c ↔ c < S n).
  { intros c. unfold allocated. by rewrite length_alloc_node. }
  assert (Huid : ∀ c, c < S n →
            (c = n ∧ uid (alloc_node x y w) c = (current_id w + 1)%Z)
            ∨ (allocated w c ∧ uid (alloc_node x y w) c = uid w c)).
  { intros c Hc. destruct (decide (c = n)) as [->|Hne].
    - left. split; [done|]. apply uid_alloc_node_new.
    - right. assert (allocated w c) by (unfold allocated; fold n; lia).
      split; [done|]. by apply uid_alloc_node_old. }
  split.
  - by apply graph_ok_alloc_node.
  - intros c Hc. apply Hlen in Hc. simpl.
    destruct (Huid c Hc) as [[_ ->]|[Hc' ->]]; [lia|].
    specialize (Hub c Hc'). lia.
  - intros c d Hc Hd. apply Hlen in Hc, Hd.
    destruct (Huid c Hc) as [[-> ->]|[Hc' ->]],
             (Huid d Hd) as [[-> ->]|[Hd' ->]]; try done.
    + intros E. specialize (Hub d Hd'). lia.
    + intros E. specialize (Hub c Hc'). lia.
    + by apply Hui.
  - intros k m Hk. apply allocated_alloc_node. by apply (Hca k).
  - apply Hci.
  - intros k m i Hk Hi. rewrite uid_alloc_node_old by eauto. eauto.
Qed.

(** The seed of [main] is a valid triangle in a well-formed store. *)
Lemma seed_triangle_ok ax ay bx by_ cx cy w :
  world_ok w →
  ∃ w', seed_triangle ax ay bx by_ cx cy w = (Ok (length (triangles w)), w')
        ∧ world_ok w' ∧ tri_ok w' (length (triangles w)).
Proof.
  intros Hok.
  set (w1 := alloc_node ax ay w).
  set (w2 := alloc_node bx by_ w1).
  set (w3 := alloc_node cx cy w2).
  assert (L1 : length (nodes w1) = S (length (nodes w))) by apply length_alloc_node.
  assert (L2 : length (nodes w2) = S (length (nodes w1))) by apply length_alloc_node.
  assert (L3 : length (nodes w3) = S (length (nodes w2))) by apply length_alloc_node.
  assert (Ok3 : world_ok w3) by (by repeat apply world_ok_alloc_node).
  destruct (Triangle_init_ok (length (nodes w)) (length (nodes w1)) (length (nodes w2)) w3)
    as (w' & Hrun & Hok' & Hext & Hgr & Htri & E1 & E2 & E3);
    try done; try (unfold allocated; lia).
  exists w'. split.
  { unfold seed_triangle, bind at 1. rewrite Node_init_run. fold w1.
    unfold bind at 1. rewrite Node_init_run. fold w2.
    unfold bind at 1. rewrite Node_init_run. fold w3.
    exact Hrun. }
  split; [done|].
  eexists. split.
  - rewrite Htri. change (triangles w3) with (triangles w).
    rewrite lookup_app_r by lia. by rewrite Nat.sub_diag.
  - pose proof (grows_allocated _ _ Hgr) as Hal.
    apply valid_triangle_connected; try done; try lia;
      apply Hal; unfold allocated; lia.
Qed.

(** Two calls in a row on a connected pair, with the cache entry the
    first one leaves. *)
Lemma create_new_node_again a b w :
  graph_ok w → b ∈ conn w a →
  ∃ m w1,
    create_new_node a b w = (Ok m, w1)
    ∧ create_new_node a b w1 = (Ok m, w1)
    ∧ create_new_node b a w1 = (Ok m, w1)
    ∧ (cache w !! cache_key w [a; b] = None → (b ∉ conn w1 a) ∧ (a ∉ conn w1 b))
    ∧ cache w1 !! cache_key w1 [a; b] = Some m.
Proof.
  intros Hg Hin.
  destruct (cache w !! cache_key w [a; b]) as [m|] eqn:Hc.
  - exists m, w. unfold create_new_node.
    rewrite !cache_nodes_hit with (m := m); try done.
    by rewrite cache_key_comm.
  - destruct (create_new_node_miss_run a b w Hg Hc Hin) as (x & y & _ & Hrun).
    destruct (graph_ok_edge w a b Hg Hin) as (Hab & Ha & Hb & Hin').
    pose proof (extends_miss a b x y w Hab Ha Hb Hc) as Hext.
    set (w1 := miss_world a b x y w) in *.
    assert (Hk : cache w1 !! cache_key w1 [a; b] = Some (length (nodes w))).
    { rewrite (cache_key_extends w w1) by done.
      unfold w1, miss_world, cache_store; simpl. apply lookup_insert_eq. }
    exists (length (nodes w)), w1. split; [done|].
    unfold create_new_node. rewrite !cache_nodes_hit with (m := length (nodes w)).
    + split; [done|]. split; [done|]. split; [|done]. intros _. split.
      * unfold w1. change (conn (miss_world a b x y w)) with (conn (split_edge a b x y w)).
        rewrite conn_split_edge by done.
        assert (a ≠ length (nodes w)) by (unfold allocated in Ha; lia).
        assert (b ≠ length (nodes w)) by (unfold allocated in Hb; lia).
        rewrite decide_False by done. rewrite decide_True by done. set_solver.
      * unfold w1. change (conn (miss_world a b x y w)) with (conn (split_edge a b x y w)).
        rewrite conn_split_edge by done.
        assert (a ≠ length (nodes w)) by (unfold allocated in Ha; lia).
        assert (b ≠ length (nodes w)) by (unfold allocated in Hb; lia).
        rewrite decide_False by done. rewrite decide_False by done.
        rewrite decide_True by done. set_solver.
    + by rewrite cache_key_comm.
    + done.
Qed.

(** C1: on a connected pair the decorated function returns a point [m];
    called again on the store this leaves, it returns the same [m] and
    leaves the store as it is, also with the arguments swapped; after a
    miss the edge is gone from that store, so the second call did not
    check it.  The point is stored under the key of the pair, and that
    key is the unordered pair of the two identifiers: two nodes [c] and
    [d] have this key exactly when their identifiers are those of [a]
    and [b], in either order, and every such call returns [m] too. *)
Theorem create_new_node_twice a b w :
  graph_ok w → b ∈ conn w a →
  ∃ m w1,
    create_new_node a b w = (Ok m, w1)
    ∧ create_new_node a b w1 = (Ok m, w1)
    ∧ create_new_node b a w1 = (Ok m, w1)
    ∧ (cache w !! cache_key w [a; b] = None → (b ∉ conn w1 a) ∧ (a ∉ conn w1 b))
    ∧ cache w1 !! cache_key w1 [a; b] = Some m
    ∧ cache_key w1 [a; b] = sorted [uid w1 a; uid w1 b]
    ∧ (∀ c d, cache_key w1 [c; d] = cache_key w1 [a; b]
              ↔ (uid w1 c = uid w1 a ∧ uid w1 d = uid w1 b)
                ∨ (uid w1 c = uid w1 b ∧ uid w1 d = uid w1 a))
    ∧ (∀ c d, (uid w1 c = uid w1 a ∧ uid w1 d = uid w1 b)
              ∨ (uid w1 c = uid w1 b ∧ uid w1 d = uid w1 a) →
              create_new_node c d w1 = (Ok m, w1)).
Proof.
  intros Hg Hin.
  destruct (create_new_node_again a b w Hg Hin) as (m & w1 & R1 & R2 & R3 & Hgone & Hk).
  exists m, w1.
  split; [done|]. split; [done|]. split; [done|]. split; [done|].
  split; [done|]. split; [apply cache_key_pair|].
  split; [intros c d; apply cache_key_same_ids|].
  intros c d Hids. unfold create_new_node. apply cache_nodes_hit.
  apply (cache_key_same_ids w1 a b c d) in Hids. by rewrite Hids.
Qed.

(** C4: on a cache miss, an unconnected pair makes the call raise the
    [ValueError] of the precondition and change nothing; a connected
    pair makes it create one node at the displaced point, connect it
    both ways to [a] and to [b], remove the edge [a]-[b] both ways,
    leave every other adjacency alone, store the node under the key of
    the unordered pair, and return it.  That key is the sorted pair of
    the two identifiers: two nodes have it exactly when their
    identifiers are those of [a] and [b], in either order. *)
Theorem create_new_node_miss a b w :
  graph_ok w → cache w !! cache_key w [a; b] = None →
  (b ∉ conn w a →
     create_new_node a b w = (Raise (ValueError msg_not_connected), w))
  ∧ (b ∈ conn w a →
     ∃ x y w',
       let new_node := length (nodes w) in
       random_perpendicular_point (coords w a) (coords w b) lit_0_3
         (random_outputs w (random_calls w)) = Ok [x; y]
       ∧ create_new_node a b w = (Ok new_node, w')
       ∧ length (nodes w') = S (length (nodes w))
       ∧ coords w' new_node = [x; y]
       ∧ conn w' new_node = {[a; b]}
       ∧ conn w' a = (conn w a ∖ {[b]}) ∪ {[new_node]}
       ∧ conn w' b = (conn w b ∖ {[a]}) ∪ {[new_node]}
       ∧ (∀ c, c ≠ new_node → c ≠ a → c ≠ b → conn w' c = conn w c)
       ∧ cache w' = <[cache_key w [a; b] := new_node]> (cache w)
       ∧ cache_key w [a; b] = cache_key w [b; a]
       ∧ cache_key w [a; b] = sorted [uid w a; uid w b]
       ∧ (∀ c d, cache_key w [c; d] = cache_key w [a; b]
                 ↔ (uid w c = uid w a ∧ uid w d = uid w b)
                   ∨ (uid w c = uid w b ∧ uid w d = uid w a))
       ∧ graph_ok w').
Proof.
  intros Hg Hc. split.
  - intros Hin. unfold create_new_node. rewrite cache_nodes_miss by done.
    by rewrite create_new_node_func_disconnected.
  - intros Hin.
    destruct (create_new_node_miss_run a b w Hg Hc Hin) as (x & y & Hp & Hrun).
    destruct (graph_ok_edge w a b Hg Hin) as (Hab & Ha & Hb & Hin').
    assert (a ≠ length (nodes w)) by (unfold allocated in Ha; lia).
    assert (b ≠ length (nodes w)) by (unfold allocated in Hb; lia).
    exists x, y, (miss_world a b x y w). cbv zeta.
    split; [done|]. split; [done|].
    split; [by rewrite nodes_miss_world, length_split_edge|].
    split; [apply coords_split_edge_new|].
    change (conn (miss_world a b x y w)) with (conn (split_edge a b x y w)).
    rewrite !conn_split_edge by done.
    rewrite decide_True by done.
    split; [done|].
    rewrite decide_False by done. rewrite decide_True by done.
    split; [done|].
    rewrite decide_False by done. rewrite decide_False by done.
    rewrite decide_True by done.
    split; [done|].
    split.
    { intros c H1 H2 H3. rewrite conn_split_edge by done.
      by rewrite !decide_False by done. }
    split; [done|]. split; [apply cache_key_comm|].
    split; [apply cache_key_pair|].
    split; [intros c d; apply cache_key_same_ids|].
    destruct (graph_ok_split_edge a b x y w Hab Ha Hb Hg) as [Hs Hi Hsh].
    by split.
Qed.

End Claims.

(** ** The claims about subdivision, expansion and errors *)

Section Claims_subdivision.

Implicit Types (w : World) (a b c m : nat) (k : list Z) (T : Triangle).

(** The store [main] subdivides first: the seed triangle on (0, 0),
    (4, 0), (2, 4), every draw of [random.random()] being 0.5. *)
Definition seed_world : World :=
  (seed_triangle (of_Z 0) (of_Z 0) (of_Z 4) (of_Z 0) (of_Z 2) (of_Z 4)
     (initial_world (λ _, lit_0_5))).2.

Lemma seed_world_ok : world_ok seed_world ∧ tri_ok seed_world 0.
Proof.
  destruct (seed_triangle_ok (of_Z 0) (of_Z 0) (of_Z 4) (of_Z 0) (of_Z 2) (of_Z 4)
              (initial_world (λ _, lit_0_5)) (world_ok_initial _))
    as (w' & Hrun & Hok & Htri).
  unfold seed_world. rewrite Hrun. done.
Qed.

(** C1 on the edge 0-1 of [seed_world]: a miss, so the edge is gone when
    the second call hits; the swapped pair has the same key. *)
Lemma create_new_node_twice_witness :
  ∃ m w1,
    create_new_node 0 1 seed_world = (Ok m, w1)
    ∧ create_new_node 0 1 w1 = (Ok m, w1)
    ∧ create_new_node 1 0 w1 = (Ok m, w1)
    ∧ ((1 ∉ conn w1 0) ∧ (0 ∉ conn w1 1))
    ∧ cache w1 !! cache_key w1 [0; 1] = Some m
    ∧ cache_key w1 [0; 1] = sorted [uid w1 0; uid w1 1]
    ∧ cache_key w1 [1; 0] = cache_key w1 [0; 1].
Proof.
  destruct (create_new_node_twice 0 1 seed_world)
    as (m & w1 & R1 & R2 & R3 & Hgone & Hk & Hkey & Hiff & _).
  - apply ok_graph, seed_world_ok.
  - apply (bool_decide_unpack _). vm_compute. exact I.
  - exists m, w1.
    split; [exact R1|]. split; [exact R2|]. split; [exact R3|].
    split; [apply Hgone; vm_compute; reflexivity|].
    split; [exact Hk|]. split; [exact Hkey|].
    apply Hiff. right. split; reflexivity.
Defined.

(** [seed_world] with a fourth node, connected to nothing. *)
Definition lone_node_world : World := alloc_node (of_Z 9) (of_Z 9) seed_world.

(** C4 on the unconnected pair 0, 3 of [lone_node_world] and on the
    edge 0-1 of [seed_world]. *)
Lemma create_new_node_miss_witness :
  create_new_node 0 3 lone_node_world
  = (Raise (ValueError msg_not_connected), lone_node_world)
  ∧ ∃ x y w',
       let new_node := length (nodes seed_world) in
       random_perpendicular_point (coords seed_world 0) (coords seed_world 1) lit_0_3
         (random_outputs seed_world (random_calls seed_world)) = Ok [x; y]
       ∧ create_new_node 0 1 seed_world = (Ok new_node, w')
       ∧ length (nodes w') = S (length (nodes seed_world))
       ∧ coords w' new_node = [x; y]
       ∧ conn w' new_node = {[0; 1]}
       ∧ conn w' 0 = (conn seed_world 0 ∖ {[1]}) ∪ {[new_node]}
       ∧ conn w' 1 = (conn seed_world 1 ∖ {[0]}) ∪ {[new_node]}
       ∧ (∀ c, c ≠ new_node → c ≠ 0 → c ≠ 1 → conn w' c = conn seed_world c)
       ∧ cache w' = <[cache_key seed_world [0; 1] := new_node]> (cache seed_world)
       ∧ cache_key seed_world [0; 1] = cache_key seed_world [1; 0]
       ∧ cache_key seed_world [0; 1] = sorted [uid seed_world 0; uid seed_world 1]
       ∧ (∀ c d, cache_key seed_world [c; d] = cache_key seed_world [0; 1]
                 ↔ (uid seed_world c = uid seed_world 0 ∧ uid seed_world d = uid seed_world 1)
                   ∨ (uid seed_world c = uid seed_world 1
                      ∧ uid seed_world d = uid seed_world 0))
       ∧ graph_ok w'.
Proof.
  split.
  - refine (proj1 (create_new_node_miss 0 3 lone_node_world _ _) _).
    + apply ok_graph, world_ok_alloc_node, seed_world_ok.
    + vm_compute. reflexivity.
    + apply (bool_decide_unpack _). vm_compute. exact I.
  - refine (proj2 (create_new_node_miss 0 1 seed_world _ _) _).
    + apply ok_graph, seed_world_ok.
    + vm_compute. reflexivity.
    + apply (bool_decide_unpack _). vm_compute. exact I.
Defined.

Definition vertices (T : Triangle) : list nat := [node_a T; node_b T; node_c T].

(** C5: on a valid triangle (A, B, C) of a well-formed store, [subdivide]
    requests the midpoints D of A-B, E of B-C and F of A-C in that order
    (each call on the store the previous one left), and returns exactly
    four new triangles, (D, B, E), (A, D, F), (F, E, C) and (D, E, F) in
    this order.  Their twelve vertices are A, B, C once each and D, E, F
    three times each; D-E, D-F and E-F are edges of the final graph. *)
Theorem subdivide_children w t T :
  world_ok w → triangles w !! t = Some T → valid_triangle w T →
  ∃ D E F w1 w2 w3 w' children,
    create_new_node (node_a T) (node_b T) w = (Ok D, w1)
    ∧ create_new_node (node_b T) (node_c T) w1 = (Ok E, w2)
    ∧ create_new_node (node_a T) (node_c T) w2 = (Ok F, w3)
    ∧ subdivide t w = (Ok children, w')
    ∧ length children = 4
    ∧ map (triangle_at w') children =
        [mkTriangle D (node_b T) E; mkTriangle (node_a T) D F;
         mkTriangle F E (node_c T); mkTriangle D E F]
    ∧ Forall (λ r, length (triangles w) ≤ r) children
    ∧ flat_map vertices (map (triangle_at w') children)
        ≡ₚ [node_a T; node_b T; node_c T] ++ [D; D; D] ++ [E; E; E] ++ [F; F; F]
    ∧ (E ∈ conn w' D ∧ D ∈ conn w' E)
    ∧ (F ∈ conn w' D ∧ D ∈ conn w' F)
    ∧ (F ∈ conn w' E ∧ E ∈ conn w' F)
    ∧ world_ok w'.
Proof.
  intros Hok Ht Hv.
  destruct (subdivide_ok w t T Hok Ht Hv)
    as (D & E & F & w1 & w2 & w3 & w' & R1 & R2 & R3 & Hrun & Htri & Hok' & Hext
        & Hch & E1 & E2 & E3).
  set (L := length (triangles w)) in *.
  exists D, E, F, w1, w2, w3, w', [L; S L; S (S L); S (S (S L))].
  assert (Hat : map (triangle_at w') [L; S L; S (S L); S (S (S L))] =
                [mkTriangle D (node_b T) E; mkTriangle (node_a T) D F;
                 mkTriangle F E (node_c T); mkTriangle D E F]).
  { unfold triangle_at. cbn [map]. rewrite Htri.
    rewrite !lookup_app_r by (unfold L; lia).
    replace (L - length (triangles w)) with 0 by (unfold L; lia).
    replace (S L - length (triangles w)) with 1 by (unfold L; lia).
    replace (S (S L) - length (triangles w)) with 2 by (unfold L; lia).
    replace (S (S (S L)) - length (triangles w)) with 3 by (unfold L; lia).
    reflexivity. }
  pose proof (g_sym _ (ok_graph _ Hok')) as Hs.
  split; [done|]. split; [done|]. split; [done|]. split; [done|].
  split; [done|]. split; [done|].
  split; [repeat constructor; lia|].
  split.
  { rewrite Hat. unfold vertices; simpl.
    set (A := node_a T). set (B := node_b T). set (C := node_c T).
    apply Permutation_cons_app with (l1 := [A; B; C]) (l2 := [D; D; E; E; E; F; F; F]); simpl.
    apply Permutation_cons_app with (l1 := [A]) (l2 := [C; D; D; E; E; E; F; F; F]); simpl.
    apply Permutation_cons_app with (l1 := [A; C; D; D]) (l2 := [E; E; F; F; F]); simpl.
    apply perm_skip.
    apply Permutation_cons_app with (l1 := [C]) (l2 := [D; E; E; F; F; F]); simpl.
    apply Permutation_cons_app with (l1 := [C; D; E; E]) (l2 := [F; F]); simpl.
    apply Permutation_cons_app with (l1 := [C; D; E; E]) (l2 := [F]); simpl.
    apply Permutation_cons_app with (l1 := [C; D]) (l2 := [E; F]); simpl.
    reflexivity. }
  split; [split; [done|by apply Hs]|].
  split; [split; [done|by apply Hs]|].
  split; [split; [done|by apply Hs]|].
  done.
Qed.

Lemma subdivide_children_witness :
  ∃ D E F w1 w2 w3 w' children,
    create_new_node 0 1 seed_world = (Ok D, w1)
    ∧ create_new_node 1 2 w1 = (Ok E, w2)
    ∧ create_new_node 0 2 w2 = (Ok F, w3)
    ∧ subdivide 0 seed_world = (Ok children, w')
    ∧ length children = 4
    ∧ map (triangle_at w') children =
        [mkTriangle D 1 E; mkTriangle 0 D F; mkTriangle F E 2; mkTriangle D E F]
    ∧ Forall (λ r, 1 ≤ r) children
    ∧ flat_map vertices (map (triangle_at w') children)
        ≡ₚ [0; 1; 2] ++ [D; D; D] ++ [E; E; E] ++ [F; F; F]
    ∧ (E ∈ conn w' D ∧ D ∈ conn w' E)
    ∧ (F ∈ conn w' D ∧ D ∈ conn w' F)
    ∧ (F ∈ conn w' E ∧ E ∈ conn w' F)
    ∧ world_ok w'.
Proof.
  destruct seed_world_ok as [Hok (T & Ht & Hv)].
  assert (HT : T = mkTriangle 0 1 2).
  { assert (H0 : triangles seed_world !! 0 = Some (mkTriangle 0 1 2))
      by (vm_compute; reflexivity).
    congruence. }
  subst T.
  exact (subdivide_children seed_world 0 (mkTriangle 0 1 2) Hok Ht Hv).
Defined.

End Claims_subdivision.

Section Claims_expansion.

Implicit Types (w : World) (a b c m : nat) (q : FIFO) (v : value).

Lemma NoDup_map_VTriangle (l : list nat) : NoDup l → NoDup (map VTriangle l).
Proof.
  induction 1 as [|x l Hx Hl IH]; simpl; constructor; [|done].
  rewrite list_elem_of_In, in_map_iff. intros (y & [= ->] & Hy).
  by apply Hx, list_elem_of_In.
Qed.

(** A round of the loop on an empty queue raises the [IndexError] of
    [dequeue]. *)
Lemma expansion_body_empty w :
  expansion_body (mkFIFO []) w = (Raise (IndexError msg_empty_queue), w).
Proof. reflexivity. Qed.

(** C3: from a queue that holds one valid seed triangle, the
    [(4^depth - 1) / 3] rounds of the expansion loop all go through (no
    [dequeue] meets an empty queue, which would raise; no subdivision
    fails), and leave [4^depth] triangles in the queue, none of which is
    one of the triangles that were dequeued and subdivided. *)
Theorem expansion_fills_queue (depth : Z) w (seed : nat) :
  (0 ≤ depth)%Z → world_ok w → tri_ok w seed →
  ∃ subdivided queue w',
    expansion depth (mkFIFO [VTriangle seed]) w = (Ok (subdivided, queue), w')
    ∧ Z.of_nat (length subdivided) = ((4 ^ depth - 1) / 3)%Z
    ∧ Z.of_nat (size queue) = (4 ^ depth)%Z
    ∧ Forall is_triangle (items queue)
    ∧ (∀ v, v ∈ items queue → v ∉ subdivided)
    ∧ NoDup (items queue)
    ∧ world_ok w'.
Proof.
  intros Hd Hok Hseed.
  destruct (expansion_count_spec depth Hd) as [Hcount Hpos].
  set (n := Z.to_nat (expansion_count depth)).
  destruct (expansion_loop_ok n w (mkFIFO [VTriangle seed]) Hok)
    as (w' & subdivided & q' & Hrun & Hok' & Hq' & Hext & Hlen & Hhist).
  { unfold queue_ok; simpl. repeat constructor. eauto. }
  { simpl. lia. }
  simpl in Hhist.
  assert (Hnodup : NoDup (subdivided ++ items q')).
  { rewrite Hhist. constructor.
    - rewrite list_elem_of_In, in_map_iff. intros (i & [= ->] & Hi).
      apply in_seq in Hi. destruct Hseed as (T & HT & _).
      apply lookup_lt_Some in HT. lia.
    - apply NoDup_map_VTriangle, NoDup_ListNoDup, seq_NoDup. }
  apply NoDup_app in Hnodup as (_ & Hdisj & Hnq).
  exists subdivided, q', w'.
  split; [done|].
  split; [fold (expansion_count depth); unfold n in Hlen; lia|].
  split.
  { apply (f_equal (@length value)) in Hhist.
    rewrite length_app in Hhist. simpl in Hhist.
    rewrite length_map, length_seq in Hhist.
    unfold size, n in *. lia. }
  split.
  { eapply Forall_impl; [exact Hq'|]. intros v (t & -> & _). by exists t. }
  split; [|done].
  intros v Hv Hs. by apply (Hdisj v).
Qed.

(** C3 on the seed of [seed_world], for depth 2: 5 rounds, 16 leaves. *)
Lemma expansion_fills_queue_witness :
  ∃ subdivided queue w',
    expansion 2 (mkFIFO [VTriangle 0]) seed_world = (Ok (subdivided, queue), w')
    ∧ Z.of_nat (length subdivided) = ((4 ^ 2 - 1) / 3)%Z
    ∧ Z.of_nat (size queue) = (4 ^ 2)%Z
    ∧ Forall is_triangle (items queue)
    ∧ (∀ v, v ∈ items queue → v ∉ subdivided)
    ∧ NoDup (items queue)
    ∧ world_ok w'.
Proof.
  apply (expansion_fills_queue 2 seed_world 0).
  - lia.
  - apply seed_world_ok.
  - apply seed_world_ok.
Defined.

End Claims_expansion.

Section Claims_errors.

Implicit Types (w : World) (a b c m : nat) (e : exn).

(** C10: on a cache miss, whatever the [try] block raises leaves
    [create_new_node] as a [ValueError] whose message is the fixed
    prefix followed by the text of that exception; and conversely an
    exception of [create_new_node] is either the [ValueError] of the
    unconnected pair, raised before the [try] with the store untouched,
    or such a wrapped exception of the [try] block. *)
Theorem create_new_node_errors a b w :
  cache w !! cache_key w [a; b] = None →
  (∀ e w', b ∈ conn w a → create_new_node_try a b w = (Raise e, w') →
     create_new_node a b w = (Raise (ValueError (FString prefix_creation e)), w'))
  ∧ (∀ e w', create_new_node a b w = (Raise e, w') →
       ((b ∉ conn w a) ∧ e = ValueError msg_not_connected ∧ w' = w)
       ∨ (b ∈ conn w a
          ∧ ∃ inner, create_new_node_try a b w = (Raise inner, w')
                     ∧ e = ValueError (FString prefix_creation inner))).
Proof.
  intros Hmiss. unfold create_new_node. rewrite cache_nodes_miss by done.
  split.
  - intros e w' Hin Htry. rewrite create_new_node_func_connected by done.
    by rewrite Htry.
  - intros e w'. destruct (decide (b ∈ conn w a)) as [Hin|Hin].
    + rewrite create_new_node_func_connected by done.
      destruct (create_new_node_try a b w) as [[r|inner] w2]; [done|].
      intros [= <- <-]. right. split; [done|]. by exists inner.
    + rewrite create_new_node_func_disconnected by done.
      intros [= <- <-]. by left.
Qed.

(** A store with a one-sided edge: node 1 is in the connections of
    node 0, not the converse. *)
Definition one_sided_world : World :=
  mkWorld [mkNode [of_Z 0; of_Z 0] {[1]} 1; mkNode [of_Z 4; of_Z 0] ∅ 2] 2 [] ∅
          (λ _, lit_0_5) 0 [].

(** A store whose node 1 has three coordinates. *)
Definition bad_shape_world : World :=
  mkWorld [mkNode [of_Z 0; of_Z 0] {[1]} 1; mkNode [of_Z 4; of_Z 0; of_Z 1] {[0]} 2] 2 [] ∅
          (λ _, lit_0_5) 0 [].

(** C10 on [one_sided_world]: the [KeyError] of the second [remove]
    comes out as a [ValueError]. *)
Lemma create_new_node_errors_witness :
  ∃ w', create_new_node 0 1 one_sided_world
        = (Raise (ValueError (FString prefix_creation (KeyError 0))), w').
Proof.
  eexists.
  apply (create_new_node_errors 0 1 one_sided_world).
  - vm_compute. reflexivity.
  - apply (bool_decide_unpack _). vm_compute. exact I.
  - vm_compute. reflexivity.
Defined.

(** The [ValueError] of the shape check of [random_perpendicular_point]
    is wrapped in the same way. *)
Lemma create_new_node_wraps_shape_error :
  create_new_node 0 1 bad_shape_world
  = (Raise (ValueError (FString prefix_creation (ValueError msg_dimension))),
     bad_shape_world).
Proof. vm_compute. reflexivity. Qed.

End Claims_errors.

(** ** Adjacency stays symmetric and irreflexive *)

Section Claims_adjacency.

Implicit Types (w : World) (a b c m : nat).

(** The operations on the graph.  The references they are given are
    existing nodes; what an operation returns or raises is dropped, what
    it did to the store before raising stays. *)
Inductive operation : Type :=
| OpNode (x y : float64)
| OpConnect (a b : nat)
| OpDisconnect (a b : nat)
| OpMidpoint (a b : nat)
| OpTriangle (a b c : nat).

Definition run_operation (o : operation) (w : World) : World :=
  match o with
  | OpNode x y => (Node_init x y w).2
  | OpConnect a b => (add_connection a b w).2
  | OpDisconnect a b => (remove_connection a b w).2
  | OpMidpoint a b => (create_new_node a b w).2
  | OpTriangle a b c => (Triangle_init a b c w).2
  end.

Definition operands (o : operation) : list nat :=
  match o with
  | OpNode _ _ => []
  | OpConnect a b | OpDisconnect a b | OpMidpoint a b => [a; b]
  | OpTriangle a b c => [a; b; c]
  end.

(** The stores a sequence of operations leads to from [w0]. *)
Inductive reachable (w0 : World) : World → Prop :=
| reachable_refl : reachable w0 w0
| reachable_step w o :
    reachable w0 w → Forall (allocated w) (operands o) →
    reachable w0 (run_operation o w).

Definition adjacency_ok (w : World) : Prop := symmetric w ∧ irreflexive w.

Lemma adjacency_ok_alloc_node x y w : adjacency_ok w → adjacency_ok (alloc_node x y w).
Proof.
  intros [Hs Hi]. split; [by apply symmetric_alloc_node|by apply irreflexive_alloc_node].
Qed.

Lemma adjacency_ok_connect a b w :
  a ≠ b → allocated w a → allocated w b → adjacency_ok w → adjacency_ok (connect a b w).
Proof.
  intros Hab Ha Hb [Hs Hi].
  split; [by apply symmetric_connect|by apply irreflexive_connect].
Qed.

Lemma adjacency_ok_disconnect a b w :
  a ≠ b → allocated w a → allocated w b → adjacency_ok w →
  adjacency_ok (disconnect a b w).
Proof.
  intros Hab Ha Hb [Hs Hi].
  split; [by apply symmetric_disconnect|by apply irreflexive_disconnect].
Qed.

Lemma adjacency_ok_add_edge a b w :
  a ≠ b → allocated w a → allocated w b → adjacency_ok w → adjacency_ok (add_edge a b w).
Proof.
  intros Hab Ha Hb Hok. unfold add_edge. case_decide; [done|].
  by apply adjacency_ok_connect.
Qed.

Lemma allocated_add_edge a b w c : allocated (add_edge a b w) c ↔ allocated w c.
Proof. unfold add_edge. case_decide; [done|]. apply allocated_connect. Qed.

Lemma adjacency_ok_add_connection a b w :
  allocated w a → allocated w b → adjacency_ok w →
  adjacency_ok (add_connection a b w).2.
Proof.
  intros Ha Hb Hok. destruct (decide (a = b)) as [->|Hab].
  - by rewrite add_connection_self.
  - rewrite add_connection_run by done. by apply adjacency_ok_add_edge.
Qed.

Lemma adjacency_ok_remove_connection a b w :
  adjacency_ok w → adjacency_ok (remove_connection a b w).2.
Proof.
  intros [Hs Hi]. destruct (decide (b ∈ conn w a)) as [Hin|Hin].
  - assert (Hab : a ≠ b) by (intros ->; by apply (Hi b)).
    pose proof (Hs _ _ Hin) as Hin'.
    rewrite remove_connection_run by done.
    apply adjacency_ok_disconnect; eauto using conn_allocated. by split.
  - by rewrite remove_connection_absent.
Qed.

Lemma adjacency_ok_split_edge a b x y w :
  a ≠ b → allocated w a → allocated w b → adjacency_ok w →
  adjacency_ok (split_edge a b x y w).
Proof.
  intros Hab Ha Hb Hok. unfold split_edge.
  set (n := length (nodes w)).
  set (w1 := alloc_node x y (consume_random w)).
  assert (Hna : n ≠ a) by (unfold allocated, n in *; lia).
  assert (Hnb : n ≠ b) by (unfold allocated, n in *; lia).
  assert (A1 : ∀ c, allocated w c → allocated w1 c)
    by (intros; by apply allocated_alloc_node).
  assert (N1 : allocated w1 n)
    by (unfold allocated, w1; rewrite length_alloc_node; simpl; unfold n; lia).
  assert (G1 : adjacency_ok w1) by (by apply adjacency_ok_alloc_node).
  apply adjacency_ok_disconnect; [done|by rewrite !allocated_connect; auto..|].
  apply adjacency_ok_connect; [done|by rewrite ?allocated_connect; auto..|].
  apply adjacency_ok_connect; auto.
Qed.

(** What [random_perpendicular_point] returns has two coordinates. *)
Lemma random_perpendicular_point_shape start end_ roughtness rnd p :
  random_perpendicular_point start end_ roughtness rnd = Ok p → ∃ x y, p = [x; y].
Proof.
  unfold random_perpendicular_point.
  destruct start as [|sx [|sy [|]]]; try done.
  destruct end_ as [|ex [|ey [|]]]; try done.
  simpl. intros [= <-]. eauto.
Qed.

Lemma adjacency_ok_create_new_node a b w :
  adjacency_ok w → adjacency_ok (create_new_node a b w).2.
Proof.
  intros Hok. unfold create_new_node.
  destruct (cache w !! cache_key w [a; b]) as [m|] eqn:Hc.
  - by rewrite (cache_nodes_hit _ _ _ m).
  - rewrite cache_nodes_miss by done.
    destruct (decide (b ∈ conn w a)) as [Hin|Hin];
      [|by rewrite create_new_node_func_disconnected].
    rewrite create_new_node_func_connected by done.
    destruct Hok as [Hs Hi].
    assert (Hab : a ≠ b) by (intros ->; by apply (Hi b)).
    pose proof (Hs _ _ Hin) as Hin'.
    pose proof (conn_allocated _ _ _ Hin) as Ha.
    pose proof (conn_allocated _ _ _ Hin') as Hb.
    destruct (random_perpendicular_point (coords w a) (coords w b) lit_0_3
                (random_outputs w (random_calls w))) as [p|e] eqn:Hp.
    + destruct (random_perpendicular_point_shape _ _ _ _ _ Hp) as (x & y & ->).
      rewrite (create_new_node_try_split a b x y w) by done. simpl.
      apply (adjacency_ok_split_edge a b x y w); try done; by split.
    + rewrite (create_new_node_try_raise a b e w) by done. simpl. by split.
Qed.

Lemma adjacency_ok_Triangle_init a b c w :
  allocated w a → allocated w b → allocated w c →
  adjacency_ok w → adjacency_ok (Triangle_init a b c w).2.
Proof.
  intros Ha Hb Hc Hok.
  unfold Triangle_init, bind at 1 2, gets, modify.
  fold (add_triangle (mkTriangle a b c) w).
  unfold bind at 1, create_edges, bind at 1, gets.
  rewrite triangle_at_add_triangle; simpl.
  set (w0 := add_triangle (mkTriangle a b c) w).
  assert (Hok0 : adjacency_ok w0) by done.
  unfold bind at 1.
  destruct (decide (a = b)) as [->|Hab]; [by rewrite add_connection_self|].
  rewrite add_connection_run by done. fold (add_edge a b w0).
  assert (Hok1 : adjacency_ok (add_edge a b w0)) by (by apply adjacency_ok_add_edge).
  unfold bind at 1.
  destruct (decide (a = c)) as [->|Hac]; [by rewrite add_connection_self|].
  rewrite add_connection_run by done. fold (add_edge a c (add_edge a b w0)).
  assert (Hok2 : adjacency_ok (add_edge a c (add_edge a b w0))).
  { apply adjacency_ok_add_edge; try done; by apply allocated_add_edge. }
  destruct (decide (b = c)) as [->|Hbc]; [by rewrite add_connection_self|].
  rewrite add_connection_run by done.
  fold (add_edge b c (add_edge a c (add_edge a b w0))).
  cbn [snd].
  apply adjacency_ok_add_edge; try done; by rewrite !allocated_add_edge.
Qed.

Lemma adjacency_ok_run_operation o w :
  Forall (allocated w) (operands o) → adjacency_ok w →
  adjacency_ok (run_operation o w).
Proof.
  intros Hrefs Hok.
  destruct o as [x y|a b|a b|a b|a b c]; cbn [run_operation operands] in *.
  - rewrite Node_init_run. by apply adjacency_ok_alloc_node.
  - apply Forall_cons in Hrefs as [Ha Hrefs]. apply Forall_cons in Hrefs as [Hb _].
    by apply adjacency_ok_add_connection.
  - by apply adjacency_ok_remove_connection.
  - by apply adjacency_ok_create_new_node.
  - apply Forall_cons in Hrefs as [Ha Hrefs]. apply Forall_cons in Hrefs as [Hb Hrefs].
    apply Forall_cons in Hrefs as [Hc _].
    by apply adjacency_ok_Triangle_init.
Qed.

(** C8: from a store whose adjacency is symmetric and irreflexive, every
    sequence of node creations, [add_connection], [remove_connection],
    [create_new_node] and [Triangle] constructions, failed ones
    included, leads to a store whose adjacency is symmetric and
    irreflexive. *)
Theorem adjacency_invariant w0 w :
  symmetric w0 → irreflexive w0 → reachable w0 w →
  (∀ a b, b ∈ conn w a ↔ a ∈ conn w b) ∧ (∀ a, a ∉ conn w a).
Proof.
  intros Hs Hi Hreach.
  assert (Hok : adjacency_ok w).
  { induction Hreach as [|w o Hreach IH Hrefs]; [by split|].
    by apply adjacency_ok_run_operation. }
  destruct Hok as [Hs' Hi']. split; [|done].
  intros a b. split; apply Hs'.
Qed.

(** A run from the empty store: two nodes, a connection, a
    self-connection that fails, a midpoint, a triangle on a repeated
    vertex that fails half-way, a disconnection. *)
Definition sample_operations : list operation :=
  [OpNode (of_Z 0) (of_Z 0); OpNode (of_Z 4) (of_Z 0); OpConnect 0 1;
   OpConnect 1 1; OpMidpoint 0 1; OpTriangle 0 2 2; OpDisconnect 2 1].

Definition sample_world : World :=
  foldl (λ w o, run_operation o w) (initial_world (λ _, lit_0_5)) sample_operations.

Lemma adjacency_invariant_witness :
  (∀ a b, b ∈ conn sample_world a ↔ a ∈ conn sample_world b)
  ∧ (∀ a, a ∉ conn sample_world a).
Proof.
  apply (adjacency_invariant (initial_world (λ _, lit_0_5)) sample_world).
  - apply (g_sym _ (ok_graph _ (world_ok_initial _))).
  - apply (g_irr _ (ok_graph _ (world_ok_initial _))).
  - unfold sample_world, sample_operations. cbn [foldl].
    repeat (apply reachable_step;
            [|cbn [operands];
              repeat (apply Forall_cons_2;
                      [unfold allocated; apply (bool_decide_unpack _);
                       vm_compute; exact I|]);
              apply Forall_nil_2]).
    apply reachable_refl.
Defined.

End Claims_adjacency.

(** * Further properties of the code *)

(** ** [Node.add_connection] and [Node.remove_connection] *)

Section More_graph.

Implicit Types (w : World) (a b c : nat).

(** X1: [add_connection] is idempotent: on two distinct nodes the call
    returns, and a second call returns too and changes nothing. *)
Theorem add_connection_idempotent a b w :
  a ≠ b → allocated w a →
  ∃ w1, add_connection a b w = (Ok tt, w1)
        ∧ b ∈ conn w1 a
        ∧ add_connection a b w1 = (Ok tt, w1).
Proof.
  intros Hab Ha. rewrite add_connection_run by done.
  destruct (decide (b ∈ conn w a)) as [Hin|Hin].
  - exists w. split; [done|]. split; [done|].
    rewrite add_connection_run by done. by rewrite decide_True.
  - exists (connect a b w). split; [done|].
    assert (Hin' : b ∈ conn (connect a b w) a).
    { unfold connect. rewrite conn_update_ne by congruence.
      rewrite conn_update_eq by done. set_solver. }
    split; [done|].
    rewrite add_connection_run by done. by rewrite decide_True.
Qed.

Lemma add_connection_idempotent_witness :
  ∃ w1, add_connection 0 2 seed_world = (Ok tt, w1)
        ∧ 2 ∈ conn w1 0
        ∧ add_connection 0 2 w1 = (Ok tt, w1).
Proof.
  apply (add_connection_idempotent 0 2 seed_world).
  - lia.
  - unfold allocated. apply (bool_decide_unpack _). vm_compute. exact I.
Defined.

Lemma alter_connections_id (l : list Node) (i : nat) (f : gset nat → gset nat) :
  (∀ n, l !! i = Some n → f (connections n) = connections n) →
  alter (λ n, mkNode (coordinates n) (f (connections n)) (unique_id n)) i l = l.
Proof.
  intros Hf. apply list_eq. intros j.
  destruct (decide (i = j)) as [<-|Hne].
  - rewrite list_lookup_alter_eq. destruct (l !! i) as [n|] eqn:Hn; [|done].
    simpl. rewrite (Hf n eq_refl). by destruct n.
  - by rewrite list_lookup_alter_ne.
Qed.

Lemma alter_connections_compose (l : list Node) (i : nat) (f g : gset nat → gset nat) :
  alter (λ n, mkNode (coordinates n) (g (connections n)) (unique_id n)) i
    (alter (λ n, mkNode (coordinates n) (f (connections n)) (unique_id n)) i l)
  = alter (λ n, mkNode (coordinates n) (g (f (connections n))) (unique_id n)) i l.
Proof.
  apply list_eq. intros j.
  destruct (decide (i = j)) as [<-|Hne].
  - rewrite !list_lookup_alter_eq. by destruct (l !! i).
  - by rewrite !list_lookup_alter_ne.
Qed.

Lemma alter_connections_comm (l : list Node) (i j : nat) (f g : gset nat → gset nat) :
  i ≠ j →
  alter (λ n, mkNode (coordinates n) (g (connections n)) (unique_id n)) j
    (alter (λ n, mkNode (coordinates n) (f (connections n)) (unique_id n)) i l)
  = alter (λ n, mkNode (coordinates n) (f (connections n)) (unique_id n)) i
      (alter (λ n, mkNode (coordinates n) (g (connections n)) (unique_id n)) j l).
Proof.
  intros Hij. apply list_eq. intros p.
  destruct (decide (p = i)) as [->|Hpi].
  - rewrite list_lookup_alter_ne by congruence.
    rewrite !list_lookup_alter_eq. by rewrite list_lookup_alter_ne by congruence.
  - destruct (decide (p = j)) as [->|Hpj].
    + rewrite list_lookup_alter_eq. rewrite !list_lookup_alter_ne by congruence.
      by rewrite list_lookup_alter_eq.
    + by rewrite !list_lookup_alter_ne by congruence.
Qed.

Lemma disconnect_connect a b w :
  a ≠ b → b ∉ conn w a → a ∉ conn w b → disconnect a b (connect a b w) = w.
Proof.
  intros Hab Hb Ha. unfold disconnect, connect, update_connections, with_nodes.
  destruct w as [l cur tr ca ro rc sc]; simpl in *. f_equal.
  unfold conn in Ha, Hb; simpl in Ha, Hb.
  rewrite (alter_connections_comm _ b a (λ s, s ∪ {[a]}) (λ s, s ∖ {[b]}))
    by congruence.
  rewrite (alter_connections_compose _ b (λ s, s ∪ {[a]}) (λ s, s ∖ {[a]})).
  rewrite (alter_connections_compose _ a (λ s, s ∪ {[b]}) (λ s, s ∖ {[b]})).
  rewrite (alter_connections_id _ b (λ s, (s ∪ {[a]}) ∖ {[a]})).
  - apply (alter_connections_id _ a (λ s, (s ∪ {[b]}) ∖ {[b]})).
    intros n Hn. rewrite Hn in Hb. simpl in Hb. set_solver.
  - intros n Hn. rewrite list_lookup_alter_ne in Hn by congruence.
    rewrite Hn in Ha. simpl in Ha. set_solver.
Qed.

(** X2: Connecting two unconnected distinct nodes and then disconnecting
    them gives back the store as it was. *)
Theorem add_then_remove_connection a b w :
  a ≠ b → allocated w a → allocated w b → b ∉ conn w a → a ∉ conn w b →
  (add_connection a b ;;; remove_connection a b) w = (Ok tt, w).
Proof.
  intros Hab Ha Hb Hnb Hna. unfold bind.
  rewrite add_connection_run by done. rewrite decide_False by done.
  rewrite remove_connection_run.
  - by rewrite disconnect_connect.
  - done.
  - rewrite conn_connect by done. rewrite decide_True by done. set_solver.
  - rewrite conn_connect by done. rewrite decide_False by congruence.
    rewrite decide_True by done. set_solver.
Qed.

(** Two fresh nodes in the empty store. *)
Definition two_nodes_world : World :=
  alloc_node (of_Z 4) (of_Z 0) (alloc_node (of_Z 0) (of_Z 0) (initial_world (λ _, lit_0_5))).

Lemma add_then_remove_connection_witness :
  (add_connection 0 1 ;;; remove_connection 0 1) two_nodes_world = (Ok tt, two_nodes_world).
Proof.
  apply (add_then_remove_connection 0 1 two_nodes_world).
  - lia.
  - unfold allocated. apply (bool_decide_unpack _). vm_compute. exact I.
  - unfold allocated. apply (bool_decide_unpack _). vm_compute. exact I.
  - apply (bool_decide_unpack _). vm_compute. exact I.
  - apply (bool_decide_unpack _). vm_compute. exact I.
Defined.

(** X3: After [remove_connection] on a two-sided edge neither node lists the
    other, the other adjacencies are as before, and a second
    [remove_connection] raises [ValueError] and changes nothing. *)
Theorem remove_connection_twice a b w :
  a ≠ b → b ∈ conn w a → a ∈ conn w b →
  ∃ w1, remove_connection a b w = (Ok tt, w1)
        ∧ (b ∉ conn w1 a) ∧ (a ∉ conn w1 b)
        ∧ conn w1 a = conn w a ∖ {[b]}
        ∧ conn w1 b = conn w b ∖ {[a]}
        ∧ (∀ c, c ≠ a → c ≠ b → conn w1 c = conn w c)
        ∧ remove_connection a b w1 = (Raise (ValueError msg_no_connection), w1).
Proof.
  intros Hab Hb Ha.
  pose proof (conn_allocated _ _ _ Hb) as Aa.
  pose proof (conn_allocated _ _ _ Ha) as Ab.
  exists (disconnect a b w). split; [by apply remove_connection_run|].
  assert (Ca : conn (disconnect a b w) a = conn w a ∖ {[b]}).
  { rewrite conn_disconnect by done. by rewrite decide_True. }
  assert (Cb : conn (disconnect a b w) b = conn w b ∖ {[a]}).
  { rewrite conn_disconnect by done. rewrite decide_False by congruence.
    by rewrite decide_True. }
  assert (Hgone : b ∉ conn (disconnect a b w) a) by (rewrite Ca; set_solver).
  split; [done|]. split; [rewrite Cb; set_solver|].
  split; [done|]. split; [done|]. split.
  - intros c Hca Hcb. rewrite conn_disconnect by done.
    by rewrite !decide_False by done.
  - by apply remove_connection_absent.
Qed.

Lemma remove_connection_twice_witness :
  ∃ w1, remove_connection 0 1 seed_world = (Ok tt, w1)
        ∧ (1 ∉ conn w1 0) ∧ (0 ∉ conn w1 1)
        ∧ conn w1 0 = conn seed_world 0 ∖ {[1]}
        ∧ conn w1 1 = conn seed_world 1 ∖ {[0]}
        ∧ (∀ c, c ≠ 0 → c ≠ 1 → conn w1 c = conn seed_world c)
        ∧ remove_connection 0 1 w1 = (Raise (ValueError msg_no_connection), w1).
Proof.
  apply (remove_connection_twice 0 1 seed_world).
  - lia.
  - apply (bool_decide_unpack _). vm_compute. exact I.
  - apply (bool_decide_unpack _). vm_compute. exact I.
Defined.

(** X4: [remove_connection] is not atomic: when [b] is in the connections of
    [a] but [a] is not in those of [b] (or when [a] lists itself), the
    call raises the [KeyError] of the second [set.remove], and [b] has
    already been removed from the connections of [a]. *)
Theorem remove_connection_half_done a b w :
  b ∈ conn w a → a = b ∨ a ∉ conn w b →
  ∃ w1, remove_connection a b w = (Raise (KeyError a), w1)
        ∧ conn w1 a = conn w a ∖ {[b]}
        ∧ (∀ c, c ≠ a → conn w1 c = conn w c).
Proof.
  intros Hb Hcase.
  pose proof (conn_allocated _ _ _ Hb) as Aa.
  exists (update_connections a (λ s, s ∖ {[b]}) w).
  assert (Ca : conn (update_connections a (λ s, s ∖ {[b]}) w) a = conn w a ∖ {[b]})
    by (by rewrite conn_update_eq).
  split; [|split; [done|]].
  - apply remove_connection_one_sided; [done|].
    destruct Hcase as [->|Hna].
    + rewrite Ca. set_solver.
    + destruct (decide (a = b)) as [->|Hab]; [rewrite Ca; set_solver|].
      by rewrite conn_update_ne.
  - intros c Hc. by rewrite conn_update_ne.
Qed.

Lemma remove_connection_half_done_witness :
  ∃ w1, remove_connection 0 1 one_sided_world = (Raise (KeyError 0), w1)
        ∧ conn w1 0 = conn one_sided_world 0 ∖ {[1]}
        ∧ (∀ c, c ≠ 0 → conn w1 c = conn one_sided_world c).
Proof.
  apply (remove_connection_half_done 0 1 one_sided_world).
  - apply (bool_decide_unpack _). vm_compute. exact I.
  - right. apply (bool_decide_unpack _). vm_compute. exact I.
Defined.

End More_graph.

(** ** [FIFO]: order and the empty queue *)

Section More_queue.

Implicit Types (q : FIFO) (v : value) (l : list value).

(** [n] calls of [dequeue] in a row: the items returned, in order, and
    the queue left; the first exception stops the run. *)
Fixpoint dequeue_many (n : nat) (q : FIFO) : result (list value * FIFO) :=
  match n with
  | O => Ok ([], q)
  | S n' =>
      match dequeue q with
      | Raise e => Raise e
      | Ok (v, q') =>
          match dequeue_many n' q' with
          | Raise e => Raise e
          | Ok (vs, q'') => Ok (v :: vs, q'')
          end
      end
  end.

Lemma dequeue_many_app l l' :
  dequeue_many (length l) (mkFIFO (l ++ l')) = Ok (l, mkFIFO l').
Proof.
  induction l as [|v l IH]; simpl; [done|].
  unfold dequeue; simpl. by rewrite IH.
Qed.

Lemma items_enqueue_each l q :
  items (foldl (λ q v, enqueue q v false) q l) = items q ++ l.
Proof.
  revert q. induction l as [|v l IH]; intros q; simpl.
  - by rewrite app_nil_r.
  - rewrite IH. simpl. by rewrite <- app_assoc.
Qed.

(** X5: First in, first out: items enqueued one by one, or as one list with
    [is_list=True], come after the items already queued and in the order
    given; [size] calls of [dequeue] return the whole content from the
    front, and leave a queue on which [is_empty] holds and [dequeue]
    raises [IndexError]. *)
Theorem fifo_order q l :
  items (foldl (λ q v, enqueue q v false) q l) = items q ++ l
  ∧ items (enqueue q (VList l) true) = items q ++ l
  ∧ size (enqueue q (VList l) true) = size q + length l
  ∧ ∃ q', dequeue_many (size (enqueue q (VList l) true)) (enqueue q (VList l) true)
          = Ok (items q ++ l, q')
          ∧ is_empty q' = true
          ∧ dequeue q' = Raise (IndexError msg_empty_queue).
Proof.
  split; [apply items_enqueue_each|]. split; [done|].
  split; [unfold size; simpl; apply length_app|].
  exists (mkFIFO []). split; [|done].
  unfold size, enqueue; simpl.
  pose proof (dequeue_many_app (items q ++ l) []) as H.
  by rewrite app_nil_r in H.
Qed.

(** X6: [dequeue] raises exactly on the queues [is_empty] accepts, and
    otherwise returns the front item and a queue one item shorter. *)
Theorem dequeue_empty_iff q :
  (is_empty q = true ↔ dequeue q = Raise (IndexError msg_empty_queue))
  ∧ (is_empty q = true ↔ size q = 0)
  ∧ (is_empty q = false →
     ∃ v q', dequeue q = Ok (v, q') ∧ items q = v :: items q' ∧ size q = S (size q')).
Proof.
  destruct q as [[|v l]]; unfold is_empty, size, dequeue; simpl.
  - repeat split; done.
  - split; [split; done|]. split; [split; done|].
    intros _. by exists v, (mkFIFO l).
Qed.

Lemma dequeue_empty_iff_witness :
  is_empty (mkFIFO [VInt 1; VInt 2]) = false
  ∧ ∃ v q', dequeue (mkFIFO [VInt 1; VInt 2]) = Ok (v, q')
            ∧ items (mkFIFO [VInt 1; VInt 2]) = v :: items q'
            ∧ size (mkFIFO [VInt 1; VInt 2]) = S (size q').
Proof.
  split; [reflexivity|].
  apply (dequeue_empty_iff (mkFIFO [VInt 1; VInt 2])). reflexivity.
Defined.

End More_queue.

(** ** [random_perpendicular_point]: when it raises *)

Section More_displacement.

(** X7: The function raises exactly when one of its arguments does not have
    shape (2,), and then the [ValueError] of the shape check; on two
    arrays of shape (2,) it returns an array of shape (2,), whatever the
    numbers in them (zero-length segments, infinities and NaN included). *)
Theorem random_perpendicular_point_raises_iff (start end_ : ndarray) roughtness rnd :
  (shape start = 2 ∧ shape end_ = 2 →
     ∃ x y, random_perpendicular_point start end_ roughtness rnd = Ok [x; y])
  ∧ (¬ (shape start = 2 ∧ shape end_ = 2) →
     random_perpendicular_point start end_ roughtness rnd
     = Raise (ValueError msg_dimension)).
Proof.
  split.
  - intros [Hs He]. by apply random_perpendicular_point_returns.
  - intros Hn. unfold random_perpendicular_point.
    destruct (Nat.eqb_spec (shape start) 2) as [Hs|Hs];
      destruct (Nat.eqb_spec (shape end_) 2) as [He|He]; simpl; try done.
    destruct Hn. done.
Qed.

Lemma random_perpendicular_point_raises_iff_witness :
  random_perpendicular_point [zero; zero; zero] [lit_1; zero] lit_0_3 lit_0_5
  = Raise (ValueError msg_dimension).
Proof.
  apply (random_perpendicular_point_raises_iff [zero; zero; zero] [lit_1; zero]).
  simpl. intros [H _]. discriminate H.
Defined.

End More_displacement.

(** ** The cache key and the [Triangle] constructor *)

Section More_cache.

Implicit Types (w : World) (a b c d : nat).

(** X8: In a well-formed store two pairs of nodes have the same cache key
    exactly when they are the same unordered pair. *)
Theorem cache_key_unordered_pair w a b c d :
  world_ok w → allocated w a → allocated w b → allocated w c → allocated w d →
  cache_key w [a; b] = cache_key w [c; d] ↔ (a = c ∧ b = d) ∨ (a = d ∧ b = c).
Proof.
  intros Hok Ha Hb Hc Hd. split.
  - by apply cache_key_inj.
  - intros [[H1 H2]|[H1 H2]]; subst; [done|apply cache_key_comm].
Qed.

Lemma cache_key_unordered_pair_witness :
  cache_key seed_world [0; 1] = cache_key seed_world [1; 0]
  ↔ (0 = 1 ∧ 1 = 0) ∨ (0 = 0 ∧ 1 = 1).
Proof.
  apply (cache_key_unordered_pair seed_world 0 1 1 0);
    [apply seed_world_ok|..];
    unfold allocated; apply (bool_decide_unpack _); vm_compute; exact I.
Defined.

(** X9: [Triangle(a, b, c)] with two equal vertices raises the
    [AssertionError] of [add_connection]; the edges that
    [create_edges] added before the failing call stay. *)
Theorem Triangle_init_degenerate a b c w :
  a = b ∨ a = c ∨ b = c →
  ∃ w', Triangle_init a b c w = (Raise (AssertionError msg_self_connection), w')
        ∧ (a ≠ b → allocated w a → allocated w b → b ∈ conn w' a).
Proof.
  intros Hdeg.
  unfold Triangle_init, bind at 1 2, gets, modify.
  fold (add_triangle (mkTriangle a b c) w).
  unfold bind at 1, create_edges, bind at 1, gets.
  rewrite triangle_at_add_triangle; simpl.
  set (w0 := add_triangle (mkTriangle a b c) w).
  unfold bind at 1.
  destruct (decide (a = b)) as [->|Hab].
  { rewrite add_connection_self. eexists. split; [done|]. by intros []. }
  rewrite add_connection_run by done. fold (add_edge a b w0).
  assert (Hedge : allocated w a → allocated w b → b ∈ conn (add_edge a b w0) a).
  { intros Ha Hb. unfold add_edge. case_decide; [done|].
    unfold connect. rewrite conn_update_ne by congruence.
    rewrite conn_update_eq by done. set_solver. }
  unfold bind at 1.
  destruct (decide (a = c)) as [->|Hac].
  { rewrite add_connection_self. eexists. split; [done|]. auto. }
  rewrite add_connection_run by done. fold (add_edge a c (add_edge a b w0)).
  destruct Hdeg as [H|[H|H]]; try done. subst c.
  rewrite add_connection_self. eexists. split; [done|].
  intros _ Ha Hb. unfold add_edge at 1. case_decide; [auto|].
  unfold connect. rewrite conn_update_ne by congruence.
  rewrite conn_update_eq by (by apply allocated_add_edge). set_solver.
Qed.

Lemma Triangle_init_degenerate_witness :
  ∃ w', Triangle_init 0 1 1 two_nodes_world
        = (Raise (AssertionError msg_self_connection), w')
        ∧ (0 ≠ 1 → allocated two_nodes_world 0 → allocated two_nodes_world 1 →
           1 ∈ conn w' 0).
Proof.
  apply (Triangle_init_degenerate 0 1 1 two_nodes_world). right. right. done.
Defined.

End More_cache.

(** ** Every store the operations build is well formed *)

Section More_invariant.

Implicit Types (w : World) (a b c : nat).

Lemma world_ok_rewired w w' :
  length (nodes w') = length (nodes w) → (∀ c, uid w' c = uid w c) →
  cache w' = cache w → current_id w' = current_id w →
  graph_ok w' → world_ok w → world_ok w'.
Proof.
  intros L U K I Hg' [Hg Hub Hui Hca Hci Hcy].
  assert (Hal : ∀ c, allocated w' c ↔ allocated w c)
    by (intros c; unfold allocated; by rewrite L).
  split; [done|..]; rewrite ?K, ?I.
  - intros c Hc. rewrite U. apply Hub. by apply Hal.
  - intros c d Hc Hd. rewrite !U. apply Hui; by apply Hal.
  - intros k m Hk. apply Hal. eauto.
  - done.
  - intros k m i Hk Hi. rewrite U. eauto.
Qed.

Lemma world_ok_add_edge a b w :
  a ≠ b → allocated w a → allocated w b → world_ok w → world_ok (add_edge a b w).
Proof.
  intros Hab Ha Hb Hok. apply (world_ok_grows w); [by apply grows_add_edge| |done].
  apply graph_ok_add_edge; try done. apply (ok_graph _ Hok).
Qed.

Lemma world_ok_disconnect a b w :
  a ≠ b → allocated w a → allocated w b → world_ok w → world_ok (disconnect a b w).
Proof.
  intros Hab Ha Hb Hok. apply (world_ok_rewired w); try done.
  - apply length_disconnect.
  - intros c. apply uid_disconnect.
  - apply graph_ok_disconnect; try done. apply (ok_graph _ Hok).
Qed.

Lemma world_ok_add_triangle T w : world_ok w → world_ok (add_triangle T w).
Proof.
  intros Hok. apply (world_ok_rewired w); try done.
  destruct (ok_graph _ Hok) as [Hs Hi Hsh]. by split.
Qed.

Lemma world_ok_create_new_node a b w :
  world_ok w → world_ok (create_new_node a b w).2.
Proof.
  intros Hok. unfold create_new_node.
  destruct (cache w !! cache_key w [a; b]) as [m|] eqn:Hc.
  - by rewrite (cache_nodes_hit _ _ _ m).
  - destruct (decide (b ∈ conn w a)) as [Hin|Hin].
    + destruct (create_new_node_miss_run a b w (ok_graph _ Hok) Hc Hin)
        as (x & y & _ & Hrun).
      destruct (graph_ok_edge w a b (ok_graph _ Hok) Hin) as (Hab & Ha & Hb & _).
      unfold create_new_node in Hrun. rewrite Hrun. simpl.
      by apply world_ok_miss.
    + rewrite cache_nodes_miss by done.
      by rewrite create_new_node_func_disconnected.
Qed.

Lemma world_ok_Triangle_init a b c w :
  allocated w a → allocated w b → allocated w c →
  world_ok w → world_ok (Triangle_init a b c w).2.
Proof.
  intros Ha Hb Hc Hok.
  unfold Triangle_init, bind at 1 2, gets, modify.
  fold (add_triangle (mkTriangle a b c) w).
  unfold bind at 1, create_edges, bind at 1, gets.
  rewrite triangle_at_add_triangle; simpl.
  set (w0 := add_triangle (mkTriangle a b c) w).
  assert (Hok0 : world_ok w0) by (by apply world_ok_add_triangle).
  unfold bind at 1.
  destruct (decide (a = b)) as [->|Hab]; [by rewrite add_connection_self|].
  rewrite add_connection_run by done. fold (add_edge a b w0).
  assert (Hok1 : world_ok (add_edge a b w0)) by (by apply world_ok_add_edge).
  unfold bind at 1.
  destruct (decide (a = c)) as [->|Hac]; [by rewrite add_connection_self|].
  rewrite add_connection_run by done. fold (add_edge a c (add_edge a b w0)).
  assert (Hok2 : world_ok (add_edge a c (add_edge a b w0))).
  { apply world_ok_add_edge; try done; by apply allocated_add_edge. }
  destruct (decide (b = c)) as [->|Hbc]; [by rewrite add_connection_self|].
  rewrite add_connection_run by done.
  fold (add_edge b c (add_edge a c (add_edge a b w0))).
  cbn [snd].
  apply world_ok_add_edge; try done; by rewrite !allocated_add_edge.
Qed.

Lemma world_ok_run_operation o w :
  Forall (allocated w) (operands o) → world_ok w → world_ok (run_operation o w).
Proof.
  intros Hrefs Hok.
  destruct o as [x y|a b|a b|a b|a b c]; cbn [run_operation operands] in *.
  - rewrite Node_init_run. by apply world_ok_alloc_node.
  - apply Forall_cons in Hrefs as [Ha Hrefs]. apply Forall_cons in Hrefs as [Hb _].
    destruct (decide (a = b)) as [->|Hab]; [by rewrite add_connection_self|].
    rewrite add_connection_run by done. by apply world_ok_add_edge.
  - destruct (decide (b ∈ conn w a)) as [Hin|Hin].
    + destruct (graph_ok_edge w a b (ok_graph _ Hok) Hin) as (Hab & Ha & Hb & Hin').
      rewrite remove_connection_run by done. by apply world_ok_disconnect.
    + by rewrite remove_connection_absent.
  - by apply world_ok_create_new_node.
  - apply Forall_cons in Hrefs as [Ha Hrefs]. apply Forall_cons in Hrefs as [Hb Hrefs].
    apply Forall_cons in Hrefs as [Hc _].
    by apply world_ok_Triangle_init.
Qed.

(** X10: Whatever sequence of node creations, connections, disconnections,
    midpoint requests and triangle constructions runs from the empty
    store, failed calls included: the identifiers of the nodes are
    pairwise distinct and at most [Node._current_id], every node has two
    coordinates, and every cached midpoint is an existing node, stored
    under one key only and created after both ends of its key. *)
Theorem reachable_world_ok rnd w :
  reachable (initial_world rnd) w → world_ok w.
Proof.
  intros Hreach. induction Hreach as [|w o Hreach IH Hrefs].
  - apply world_ok_initial.
  - by apply world_ok_run_operation.
Qed.

Lemma reachable_sample_world : reachable (initial_world (λ _, lit_0_5)) sample_world.
Proof.
  unfold sample_world, sample_operations. cbn [foldl].
  repeat (apply reachable_step;
          [|cbn [operands];
            repeat (apply Forall_cons_2;
                    [unfold allocated; apply (bool_decide_unpack _);
                     vm_compute; exact I|]);
            apply Forall_nil_2]).
  apply reachable_refl.
Qed.

Lemma reachable_world_ok_witness : world_ok sample_world.
Proof.
  apply (reachable_world_ok (λ _, lit_0_5) sample_world).
  apply reachable_sample_world.
Defined.

End More_invariant.

(** ** The cache only grows *)

Section More_cache_growth.

Implicit Types (w : World) (a b c : nat).

(** A computation that leaves the cache as it found it, whether it
    returns or raises. *)
Definition keeps_cache {A} (m : M A) : Prop := ∀ w, cache (m w).2 = cache w.

Lemma keeps_cache_ret {A} (x : A) : keeps_cache (ret x).
Proof. by intros w. Qed.

Lemma keeps_cache_raise {A} e : keeps_cache (@raise A e).
Proof. by intros w. Qed.

Lemma keeps_cache_gets {A} (f : World → A) : keeps_cache (gets f).
Proof. by intros w. Qed.

Lemma keeps_cache_bind {A B} (m : M A) (k : A → M B) :
  keeps_cache m → (∀ x, keeps_cache (k x)) → keeps_cache (bind m k).
Proof.
  intros Hm Hk w. unfold bind. specialize (Hm w).
  destruct (m w) as [[x|e] w1]; simpl in *; [|done].
  by rewrite Hk.
Qed.

Lemma keeps_cache_try_except {A} (body : M A) (handler : exn → M A) :
  keeps_cache body → (∀ e, keeps_cache (handler e)) →
  keeps_cache (try_except body handler).
Proof.
  intros Hm Hk w. unfold try_except. specialize (Hm w).
  destruct (body w) as [[x|e] w1]; simpl in *; [done|].
  by rewrite Hk.
Qed.

Lemma keeps_cache_set_add a b : keeps_cache (set_add a b).
Proof. by intros w. Qed.

Lemma keeps_cache_set_remove a b : keeps_cache (set_remove a b).
Proof. intros w. unfold set_remove. by case_decide. Qed.

Lemma keeps_cache_add_connection a b : keeps_cache (add_connection a b).
Proof.
  unfold add_connection. case_decide; [apply keeps_cache_raise|].
  apply keeps_cache_bind; [apply keeps_cache_gets|].
  intros [|]; [apply keeps_cache_ret|].
  apply keeps_cache_bind; [apply keeps_cache_set_add|].
  intros _. apply keeps_cache_set_add.
Qed.

Lemma keeps_cache_remove_connection a b : keeps_cache (remove_connection a b).
Proof.
  unfold remove_connection.
  apply keeps_cache_bind; [apply keeps_cache_gets|].
  intros [|]; [|apply keeps_cache_raise].
  apply keeps_cache_bind; [apply keeps_cache_set_remove|].
  intros _. apply keeps_cache_set_remove.
Qed.

Lemma keeps_cache_Node_init x y : keeps_cache (Node_init x y).
Proof. by intros w. Qed.

Lemma keeps_cache_draw_perpendicular_point s e :
  keeps_cache (draw_perpendicular_point s e).
Proof.
  intros w. unfold draw_perpendicular_point.
  by destruct (random_perpendicular_point _ _ _ _).
Qed.

Lemma keeps_cache_create_new_node_try a b : keeps_cache (create_new_node_try a b).
Proof.
  unfold create_new_node_try.
  apply keeps_cache_bind; [apply keeps_cache_gets|]. intros s.
  apply keeps_cache_bind; [apply keeps_cache_gets|]. intros e.
  apply keeps_cache_bind; [apply keeps_cache_draw_perpendicular_point|].
  intros [|x [|y [|z p]]]; try apply keeps_cache_raise.
  apply keeps_cache_bind; [apply keeps_cache_Node_init|]. intros n.
  apply keeps_cache_bind; [apply keeps_cache_add_connection|]. intros _.
  apply keeps_cache_bind; [apply keeps_cache_add_connection|]. intros _.
  apply keeps_cache_bind; [apply keeps_cache_remove_connection|]. intros _.
  apply keeps_cache_ret.
Qed.

Lemma keeps_cache_create_new_node_func a b : keeps_cache (create_new_node_func a b).
Proof.
  unfold create_new_node_func.
  apply keeps_cache_bind; [apply keeps_cache_gets|].
  intros [|]; simpl; [|apply keeps_cache_raise].
  apply keeps_cache_try_except; [apply keeps_cache_create_new_node_try|].
  intros e. apply keeps_cache_raise.
Qed.

(** X11: In any store, whatever its state, [create_new_node] never removes
    nor overwrites a cache entry: it leaves every key other than the
    key of its two arguments alone, an entry that exists keeps its
    value, and a call that raises leaves the whole cache as it was. *)
Theorem create_new_node_cache_grows a b w :
  (∀ k m, cache w !! k = Some m → cache (create_new_node a b w).2 !! k = Some m)
  ∧ (∀ k, k ≠ cache_key w [a; b] →
          cache (create_new_node a b w).2 !! k = cache w !! k)
  ∧ (∀ e, (create_new_node a b w).1 = Raise e →
          cache (create_new_node a b w).2 = cache w).
Proof.
  unfold create_new_node.
  destruct (cache w !! cache_key w [a; b]) as [m0|] eqn:Hc.
  - rewrite (cache_nodes_hit _ _ _ m0) by done. simpl. done.
  - rewrite cache_nodes_miss by done.
    pose proof (keeps_cache_create_new_node_func a b w) as Hk.
    destruct (create_new_node_func a b w) as [[r|e0] w1]; simpl in *.
    + rewrite Hk. split; [|split; [|done]].
      * intros k m Hm. rewrite lookup_insert_ne; [done|]. congruence.
      * intros k Hne. by rewrite lookup_insert_ne.
    + by rewrite Hk.
Qed.

End More_cache_growth.

(** ** More on [subdivide] and the expansion loop *)

Section More_subdivision.

Implicit Types (w : World) (a b c : nat) (T : Triangle).

(** X12: An edge of the triangle that is neither in the graph nor cached:
    [subdivide] lets the [ValueError] of [create_new_node] through, as
    it is, and on the first edge nothing has been changed. *)
Theorem subdivide_unconnected w t T :
  triangles w !! t = Some T →
  cache w !! cache_key w [node_a T; node_b T] = None →
  node_b T ∉ conn w (node_a T) →
  subdivide t w = (Raise (ValueError msg_not_connected), w).
Proof.
  intros Ht Hc Hin.
  unfold subdivide, bind at 1, gets. rewrite (triangle_at_lookup _ _ _ Ht).
  unfold bind. unfold create_new_node at 1.
  rewrite cache_nodes_miss by done.
  by rewrite create_new_node_func_disconnected.
Qed.

(** A triangle on two unconnected nodes of [two_nodes_world]. *)
Definition loose_triangle_world : World := add_triangle (mkTriangle 0 1 0) two_nodes_world.

Lemma subdivide_unconnected_witness :
  subdivide 0 loose_triangle_world
  = (Raise (ValueError msg_not_connected), loose_triangle_world).
Proof.
  apply (subdivide_unconnected loose_triangle_world 0 (mkTriangle 0 1 0)).
  - reflexivity.
  - vm_compute. reflexivity.
  - apply (bool_decide_unpack _). vm_compute. exact I.
Defined.

(** X13: Any number of rounds of the expansion loop, from a queue holding one
    valid triangle: every round goes through, the queue holds three
    triangles more after each, and the triangles are subdivided in the
    order of their creation (breadth first): the subdivided ones followed
    by the queued ones are the seed and then the created triangles, in
    creation order. *)
Theorem expansion_loop_breadth_first (n : nat) w (seed : nat) :
  world_ok w → tri_ok w seed →
  ∃ subdivided queue w',
    expansion_loop n (mkFIFO [VTriangle seed]) w = (Ok (subdivided, queue), w')
    ∧ length subdivided = n
    ∧ size queue = 3 * n + 1
    ∧ subdivided ++ items queue
      = VTriangle seed :: map VTriangle (seq (length (triangles w)) (4 * n))
    ∧ world_ok w'.
Proof.
  intros Hok Hseed.
  destruct (expansion_loop_ok n w (mkFIFO [VTriangle seed]) Hok)
    as (w' & subdivided & q' & Hrun & Hok' & Hq' & Hext & Hlen & Hhist).
  { unfold queue_ok; simpl. repeat constructor. eauto. }
  { simpl. lia. }
  exists subdivided, q', w'. split; [done|]. split; [done|].
  split; [|by split].
  apply (f_equal (@length value)) in Hhist.
  rewrite !length_app in Hhist. simpl in Hhist.
  rewrite length_map, length_seq in Hhist. unfold size. lia.
Qed.

Lemma expansion_loop_breadth_first_witness :
  ∃ subdivided queue w',
    expansion_loop 3 (mkFIFO [VTriangle 0]) seed_world = (Ok (subdivided, queue), w')
    ∧ length subdivided = 3
    ∧ size queue = 3 * 3 + 1
    ∧ subdivided ++ items queue
      = VTriangle 0 :: map VTriangle (seq (length (triangles seed_world)) (4 * 3))
    ∧ world_ok w'.
Proof.
  apply (expansion_loop_breadth_first 3 seed_world 0); apply seed_world_ok.
Defined.

(** X14: [main] up to the drawing loop, for any seed coordinates (repeated
    points, infinities and NaN included), any sequence of random
    numbers and any depth: the mesh is built without an exception and
    the queue then holds [4^depth] triangles. *)
Theorem build_mesh_total ax ay bx by_ cx cy (depth : Z) rnd :
  (0 ≤ depth)%Z →
  ∃ queue w',
    build_mesh ax ay bx by_ cx cy depth (initial_world rnd) = (Ok queue, w')
    ∧ Z.of_nat (size queue) = (4 ^ depth)%Z
    ∧ Forall is_triangle (items queue)
    ∧ world_ok w'.
Proof.
  intros Hd.
  destruct (seed_triangle_ok ax ay bx by_ cx cy (initial_world rnd) (world_ok_initial _))
    as (w0 & Hseed & Hok0 & Htri0).
  destruct (expansion_count_spec depth Hd) as [Hcount Hpos].
  set (n := Z.to_nat (expansion_count depth)).
  destruct (expansion_loop_ok n w0 (mkFIFO [VTriangle 0]) Hok0)
    as (w' & subdivided & q' & Hrun & Hok' & Hq' & Hext & Hlen & Hhist).
  { unfold queue_ok; simpl. repeat constructor. eauto. }
  { simpl. lia. }
  exists q', w'. split.
  { unfold build_mesh, bind at 1. rewrite Hseed.
    change (enqueue FIFO_init (VTriangle (length (triangles (initial_world rnd)))) false)
      with (mkFIFO [VTriangle 0]).
    unfold bind, expansion. fold n. by rewrite Hrun. }
  split.
  { apply (f_equal (@length value)) in Hhist.
    rewrite !length_app in Hhist. simpl in Hhist.
    rewrite length_map, length_seq in Hhist. unfold size, n in *. lia. }
  split; [|done].
  eapply Forall_impl; [exact Hq'|]. intros v (t & -> & _). by exists t.
Qed.

(** [main_mesh] is [main] with the depth 6 and the seed of the source:
    4096 triangles. *)
Lemma build_mesh_total_witness :
  ∃ queue w',
    main_mesh (initial_world (λ _, lit_0_5)) = (Ok queue, w')
    ∧ Z.of_nat (size queue) = (4 ^ 6)%Z
    ∧ Forall is_triangle (items queue)
    ∧ world_ok w'.
Proof.
  apply (build_mesh_total (of_Z 100) (of_Z 600) (of_Z 350) (of_Z 200)
           (of_Z 600) (of_Z 600) 6 (λ _, lit_0_5)).
  lia.
Defined.

End More_subdivision.

(** ** Subdividing again *)

Section More_resubdivision.

Implicit Types (w : World) (a b c : nat) (T : Triangle).

(** On three distinct nodes that are pairwise connected already, the
    constructor only allocates the triangle. *)
Lemma Triangle_init_connected_run a b c w :
  a ≠ b → a ≠ c → b ≠ c →
  b ∈ conn w a → c ∈ conn w a → c ∈ conn w b →
  Triangle_init a b c w
  = (Ok (length (triangles w)), add_triangle (mkTriangle a b c) w).
Proof.
  intros Hab Hac Hbc E1 E2 E3. rewrite Triangle_init_run by done.
  set (w0 := add_triangle (mkTriangle a b c) w).
  assert (H1 : add_edge a b w0 = w0) by (unfold add_edge; by rewrite decide_True).
  rewrite H1.
  assert (H2 : add_edge a c w0 = w0) by (unfold add_edge; by rewrite decide_True).
  rewrite H2.
  assert (H3 : add_edge b c w0 = w0) by (unfold add_edge; by rewrite decide_True).
  by rewrite H3.
Qed.

(** X15: Constructing a triangle on nodes that are already pairwise connected
    re-establishes nothing: the nodes, their connections and the cache
    are untouched, the store gains the triangle object only. *)
Theorem Triangle_init_existing_edges a b c w :
  a ≠ b → a ≠ c → b ≠ c →
  b ∈ conn w a → c ∈ conn w a → c ∈ conn w b →
  ∃ w', Triangle_init a b c w = (Ok (length (triangles w)), w')
        ∧ nodes w' = nodes w ∧ cache w' = cache w
        ∧ triangles w' = triangles w ++ [mkTriangle a b c].
Proof.
  intros Hab Hac Hbc E1 E2 E3.
  exists (add_triangle (mkTriangle a b c) w).
  split; [by apply Triangle_init_connected_run|done].
Qed.

Lemma Triangle_init_existing_edges_witness :
  ∃ w', Triangle_init 0 1 2 seed_world = (Ok (length (triangles seed_world)), w')
        ∧ nodes w' = nodes seed_world ∧ cache w' = cache seed_world
        ∧ triangles w' = triangles seed_world ++ [mkTriangle 0 1 2].
Proof.
  apply (Triangle_init_existing_edges 0 1 2 seed_world); try lia;
    apply (bool_decide_unpack _); vm_compute; exact I.
Defined.

(** [subdivide] on a valid triangle, with what the next subdivision of
    the same triangle needs: the midpoints are cached in the final
    store and every edge of every child is in the final graph. *)
Lemma subdivide_detail w t T :
  world_ok w → triangles w !! t = Some T → valid_triangle w T →
  ∃ D E F w',
    subdivide t w =
      (Ok [length (triangles w); S (length (triangles w));
           S (S (length (triangles w))); S (S (S (length (triangles w))))], w')
    ∧ triangles w' =
        triangles w ++ [mkTriangle D (node_b T) E; mkTriangle (node_a T) D F;
                        mkTriangle F E (node_c T); mkTriangle D E F]
    ∧ world_ok w' ∧ extends w w'
    ∧ length (nodes w') ≤ length (nodes w) + 3
    ∧ cache w' !! cache_key w' [node_a T; node_b T] = Some D
    ∧ cache w' !! cache_key w' [node_b T; node_c T] = Some E
    ∧ cache w' !! cache_key w' [node_a T; node_c T] = Some F
    ∧ (node_b T ∈ conn w' D ∧ E ∈ conn w' D ∧ E ∈ conn w' (node_b T))
    ∧ (D ∈ conn w' (node_a T) ∧ F ∈ conn w' (node_a T) ∧ F ∈ conn w' D)
    ∧ (E ∈ conn w' F ∧ node_c T ∈ conn w' F ∧ node_c T ∈ conn w' E).
Proof.
  intros Hok Ht Hv.
  destruct T as [A B C]; simpl in *.
  destruct Hv as (Ha & Hb & Hc & Hab & Hbc & Hac & Eab & Ebc & Eac); simpl in *.
  assert (Count : ∀ a b w0, world_ok w0 → allocated w0 a → allocated w0 b → a ≠ b →
            edge_ok w0 a b →
            length (nodes (create_new_node a b w0).2) ≤ S (length (nodes w0))).
  { intros a b w0 Hok0 Ha0 Hb0 Hab0 He0.
    destruct (cache w0 !! cache_key w0 [a; b]) as [m|] eqn:Hcm.
    - unfold create_new_node. rewrite (cache_nodes_hit _ _ _ m) by done. simpl. lia.
    - destruct He0 as [Hin|[m Hm]]; [|unfold cache_key in *; congruence].
      destruct (create_new_node_miss_run a b w0 (ok_graph _ Hok0) Hcm Hin)
        as (x & y & _ & Hrun).
      rewrite Hrun. cbn [snd]. rewrite nodes_miss_world, length_split_edge. lia. }
  destruct (create_new_node_ok A B w Hok Ha Hb Hab Eab)
    as (D & w1 & R1 & Ok1 & X1 & K1 & T1).
  pose proof (Count A B w Hok Ha Hb Hab Eab) as N1. rewrite R1 in N1. simpl in N1.
  assert (Ha1 : allocated w1 A) by eauto using extends_allocated.
  assert (Hb1 : allocated w1 B) by eauto using extends_allocated.
  assert (Hc1 : allocated w1 C) by eauto using extends_allocated.
  pose proof (ext_edge _ _ X1 _ _ Hb Hc Ebc) as Ebc1.
  destruct (create_new_node_ok B C w1 Ok1 Hb1 Hc1 Hbc Ebc1)
    as (E & w2 & R2 & Ok2 & X2 & K2 & T2).
  pose proof (Count B C w1 Ok1 Hb1 Hc1 Hbc Ebc1) as N2. rewrite R2 in N2. simpl in N2.
  assert (X02 : extends w w2) by eauto using extends_trans.
  assert (Ha2 : allocated w2 A) by eauto using extends_allocated.
  assert (Hb2 : allocated w2 B) by eauto using extends_allocated.
  assert (Hc2 : allocated w2 C) by eauto using extends_allocated.
  pose proof (ext_edge _ _ X02 _ _ Ha Hc Eac) as Eac2.
  destruct (create_new_node_ok A C w2 Ok2 Ha2 Hc2 Hac Eac2)
    as (F & w3 & R3 & Ok3 & X3 & K3 & T3).
  pose proof (Count A C w2 Ok2 Ha2 Hc2 Hac Eac2) as N3. rewrite R3 in N3. simpl in N3.
  assert (X03 : extends w w3) by eauto using extends_trans.
  assert (X13 : extends w1 w3) by eauto using extends_trans.
  assert (Ha3 : allocated w3 A) by eauto using extends_allocated.
  assert (Hb3 : allocated w3 B) by eauto using extends_allocated.
  assert (Hc3 : allocated w3 C) by eauto using extends_allocated.
  assert (KD : cache w3 !! cache_key w3 [A; B] = Some D).
  { rewrite (cache_key_extends w w3) by done. by apply (ext_cache _ _ X13). }
  assert (KE : cache w3 !! cache_key w3 [B; C] = Some E).
  { rewrite (cache_key_extends w1 w3) by done. by apply (ext_cache _ _ X3). }
  assert (KF : cache w3 !! cache_key w3 [A; C] = Some F).
  { by rewrite (cache_key_extends w2 w3) by done. }
  destruct (midpoints_distinct w3 A B C D E F Ok3 Ha3 Hb3 Hc3 Hab Hbc Hac KD KE KF)
    as ((DA & DB) & (EB & EC) & (FA & FC) & DE & DF & EF).
  assert (Hd3 : allocated w3 D) by eauto using ok_cache_alloc.
  assert (He3 : allocated w3 E) by eauto using ok_cache_alloc.
  assert (Hf3 : allocated w3 F) by eauto using ok_cache_alloc.
  destruct (Triangle_init_ok D B E w3) as (w4 & R4 & Ok4 & X4 & G4 & T4 & C4a & C4b & C4c);
    auto.
  pose proof (grows_allocated _ _ G4) as A4.
  destruct (Triangle_init_ok A D F w4) as (w5 & R5 & Ok5 & X5 & G5 & T5 & C5a & C5b & C5c);
    try apply A4; auto.
  pose proof (grows_allocated _ _ G5) as A5.
  destruct (Triangle_init_ok F E C w5) as (w6 & R6 & Ok6 & X6 & G6 & T6 & C6a & C6b & C6c);
    try apply A5; try apply A4; auto.
  pose proof (grows_allocated _ _ G6) as A6.
  destruct (Triangle_init_ok D E F w6) as (w7 & R7 & Ok7 & X7 & G7 & T7 & C7a & C7b & C7c);
    try apply A6; try apply A5; try apply A4; auto.
  assert (G37 : grows w3 w7) by eauto using grows_trans.
  exists D, E, F, w7.
  assert (L3 : triangles w3 = triangles w) by congruence.
  split.
  { unfold subdivide, bind at 1, gets. rewrite (triangle_at_lookup _ _ _ Ht); simpl.
    unfold bind at 1. rewrite R1. unfold bind at 1. rewrite R2.
    unfold bind at 1. rewrite R3. unfold bind at 1. rewrite R4.
    unfold bind at 1. rewrite R5. unfold bind at 1. rewrite R6.
    unfold bind at 1. rewrite R7. unfold ret.
    rewrite T6, T5, T4, L3, !length_app; simpl.
    repeat f_equal; lia. }
  split.
  { rewrite T7, T6, T5, T4, L3, <- !app_assoc. reflexivity. }
  split; [done|].
  split; [eauto 10 using extends_trans|].
  split; [rewrite (gr_length _ _ G37); lia|].
  rewrite !(grows_cache_key _ _ _ G37), (gr_cache _ _ G37).
  split; [done|]. split; [done|]. split; [done|].
  assert (S5 : ∀ d, conn w4 d ⊆ conn w7 d).
  { intros d. pose proof (gr_conn _ _ G5 d). pose proof (gr_conn _ _ G6 d).
    pose proof (gr_conn _ _ G7 d). set_solver. }
  assert (S6 : ∀ d, conn w5 d ⊆ conn w7 d).
  { intros d. pose proof (gr_conn _ _ G6 d). pose proof (gr_conn _ _ G7 d).
    set_solver. }
  assert (S7 : ∀ d, conn w6 d ⊆ conn w7 d).
  { intros d. pose proof (gr_conn _ _ G7 d). set_solver. }
  split; [repeat split; by apply S5|].
  split; [repeat split; by apply S6|].
  repeat split; by apply S7.
Qed.

(** X16: Subdividing a triangle a second time goes through on cache hits
    alone: it returns four new triangle objects with the vertices of
    the first four, and creates no node, changes no connection and no
    cache entry. *)
Theorem subdivide_twice w t T :
  world_ok w → triangles w !! t = Some T → valid_triangle w T →
  ∃ first w1 second w2,
    subdivide t w = (Ok first, w1)
    ∧ subdivide t w1 = (Ok second, w2)
    ∧ map (triangle_at w2) second = map (triangle_at w1) first
    ∧ Forall (λ r, length (triangles w1) ≤ r) second
    ∧ nodes w2 = nodes w1 ∧ cache w2 = cache w1.
Proof.
  intros Hok Ht Hv.
  destruct (subdivide_detail w t T Hok Ht Hv)
    as (D & E & F & w1 & Hrun & Htri & Hok1 & Hext & _ & KD & KE & KF
        & (E1 & E2 & E3) & (E4 & E5 & E6) & (E7 & E8 & E9)).
  destruct Hv as (Ha & Hb & Hc & Hab & Hbc & Hac & _).
  set (A := node_a T) in *. set (B := node_b T) in *. set (C := node_c T) in *.
  assert (Ha1 : allocated w1 A) by eauto using extends_allocated.
  assert (Hb1 : allocated w1 B) by eauto using extends_allocated.
  assert (Hc1 : allocated w1 C) by eauto using extends_allocated.
  destruct (midpoints_distinct w1 A B C D E F Hok1 Ha1 Hb1 Hc1 Hab Hbc Hac KD KE KF)
    as ((DA & DB) & (EB & EC) & (FA & FC) & DE & DF & EF).
  pose proof (g_sym _ (ok_graph _ Hok1)) as Hs.
  set (L := length (triangles w)) in *.
  set (T1 := mkTriangle D B E). set (T2 := mkTriangle A D F).
  set (T3 := mkTriangle F E C). set (T4 := mkTriangle D E F).
  fold T1 T2 T3 T4 in Htri.
  set (u1 := add_triangle T1 w1). set (u2 := add_triangle T2 u1).
  set (u3 := add_triangle T3 u2). set (u4 := add_triangle T4 u3).
  assert (L1 : length (triangles w1) = L + 4).
  { rewrite Htri, length_app. simpl. unfold L. lia. }
  exists [L; S L; S (S L); S (S (S L))], w1,
         [L + 4; L + 5; L + 6; L + 7], u4.
  split; [done|].
  split.
  { unfold subdivide, bind at 1, gets.
    rewrite (triangle_at_lookup _ _ T) by (by apply (ext_tri _ _ Hext)).
    fold A B C.
    unfold bind at 1, create_new_node at 1. rewrite (cache_nodes_hit _ _ _ D) by done.
    unfold bind at 1, create_new_node at 1. rewrite (cache_nodes_hit _ _ _ E) by done.
    unfold bind at 1, create_new_node at 1. rewrite (cache_nodes_hit _ _ _ F) by done.
    unfold bind at 1. rewrite (Triangle_init_connected_run D B E w1) by done.
    fold T1 u1.
    unfold bind at 1. rewrite (Triangle_init_connected_run A D F u1) by done.
    fold T2 u2.
    unfold bind at 1. rewrite (Triangle_init_connected_run F E C u2) by done.
    fold T3 u3.
    unfold bind at 1.
    rewrite (Triangle_init_connected_run D E F u3) by (try done; by apply Hs).
    fold T4 u4. unfold ret.
    unfold u3, u2, u1, add_triangle; simpl. rewrite !length_app, L1. simpl.
    replace (L + 4 + 1 + 1 + 1) with (L + 7) by lia.
    replace (L + 4 + 1 + 1) with (L + 6) by lia.
    by replace (L + 4 + 1) with (L + 5) by lia. }
  split.
  { unfold triangle_at. cbn [map].
    unfold u4, u3, u2, u1, add_triangle; cbn [triangles].
    rewrite <- !app_assoc. cbn [app].
    rewrite !lookup_app_r by lia. rewrite L1.
    replace (L + 4 - (L + 4)) with 0 by lia.
    replace (L + 5 - (L + 4)) with 1 by lia.
    replace (L + 6 - (L + 4)) with 2 by lia.
    replace (L + 7 - (L + 4)) with 3 by lia.
    rewrite Htri. rewrite !lookup_app_r by (unfold L; lia).
    replace (L - length (triangles w)) with 0 by (unfold L; lia).
    replace (S L - length (triangles w)) with 1 by (unfold L; lia).
    replace (S (S L) - length (triangles w)) with 2 by (unfold L; lia).
    replace (S (S (S L)) - length (triangles w)) with 3 by (unfold L; lia).
    reflexivity. }
  split; [repeat constructor; lia|].
  done.
Qed.

Lemma subdivide_twice_witness :
  ∃ first w1 second w2,
    subdivide 0 seed_world = (Ok first, w1)
    ∧ subdivide 0 w1 = (Ok second, w2)
    ∧ map (triangle_at w2) second = map (triangle_at w1) first
    ∧ Forall (λ r, length (triangles w1) ≤ r) second
    ∧ nodes w2 = nodes w1 ∧ cache w2 = cache w1.
Proof.
  destruct seed_world_ok as [Hok (T & Ht & Hv)].
  exact (subdivide_twice seed_world 0 T Hok Ht Hv).
Defined.

End More_resubdivision.

(** ** Subdividing a triangle none of whose edges was subdivided *)

Section More_fresh_subdivision.

Implicit Types (w : World) (a b c x : nat) (T : Triangle).

Lemma conn_add_edge_exact a b w x :
  a ≠ b → allocated w a → allocated w b → symmetric w →
  conn (add_edge a b w) x =
    conn w x ∪ (if decide (x = a) then {[b]} else if decide (x = b) then {[a]} else ∅).
Proof.
  intros Hab Ha Hb Hs. unfold add_edge.
  destruct (decide (b ∈ conn w a)) as [Hin|Hin].
  - pose proof (Hs _ _ Hin) as Hin'.
    repeat destruct (decide _); simplify_eq; set_solver.
  - rewrite conn_connect by done.
    repeat destruct (decide _); simplify_eq; set_solver.
Qed.

(** The connections after [Triangle(a, b, c)] on distinct nodes. *)
Definition triangle_edges (a b c x : nat) : gset nat :=
  if decide (x = a) then {[b; c]}
  else if decide (x = b) then {[a; c]}
  else if decide (x = c) then {[a; b]} else ∅.

Lemma Triangle_init_conn a b c w x :
  graph_ok w → allocated w a → allocated w b → allocated w c →
  a ≠ b → a ≠ c → b ≠ c →
  conn (Triangle_init a b c w).2 x = conn w x ∪ triangle_edges a b c x.
Proof.
  intros Hg Ha Hb Hc Hab Hac Hbc. rewrite Triangle_init_run by done. cbn [snd].
  set (w0 := add_triangle (mkTriangle a b c) w).
  assert (Hg0 : graph_ok w0) by (destruct Hg; by split).
  assert (Hg1 : graph_ok (add_edge a b w0)) by (by apply graph_ok_add_edge).
  assert (Hg2 : graph_ok (add_edge a c (add_edge a b w0))).
  { apply graph_ok_add_edge; try done; by apply allocated_add_edge. }
  rewrite conn_add_edge_exact;
    [|done|by rewrite !allocated_add_edge..|apply (g_sym _ Hg2)].
  rewrite conn_add_edge_exact;
    [|done|by rewrite !allocated_add_edge..|apply (g_sym _ Hg1)].
  rewrite conn_add_edge_exact; [|done..|apply (g_sym _ Hg0)].
  change (conn w0 x) with (conn w x). unfold triangle_edges.
  repeat destruct (decide _); simplify_eq; set_solver.
Qed.

Lemma conn_miss_world a b p q w x :
  a ≠ b → allocated w a → allocated w b →
  conn (miss_world a b p q w) x =
    if decide (x = length (nodes w)) then {[a; b]}
    else if decide (x = a) then (conn w a ∖ {[b]}) ∪ {[length (nodes w)]}
    else if decide (x = b) then (conn w b ∖ {[a]}) ∪ {[length (nodes w)]}
    else conn w x.
Proof.
  intros. change (conn (miss_world a b p q w) x) with (conn (split_edge a b p q w) x).
  by apply conn_split_edge.
Qed.

Ltac decide_by_lia :=
  repeat first [rewrite decide_True by lia | rewrite decide_False by lia].

Ltac decide_by_done :=
  repeat first [rewrite decide_True by done | rewrite decide_False by done].

(** [set_solver] on the memberships, emptiness facts and disequalities
    of the context only. *)
Ltac solve_sets :=
  repeat match goal with
         | H : ?P |- _ =>
             lazymatch P with
             | _ ≠ _ => fail
             | _ ∈ _ => fail
             | _ = ∅ => fail
             | _ => clear H
             end
         end;
  set_solver.

(** X17: [subdivide] on a valid triangle (A, B, C) none of whose edges has a
    cached midpoint creates exactly three nodes D, E, F (the next three
    references), caches them under the three edges, and rewires the
    graph completely: A, B and C are no longer adjacent to one another
    and have gained their two midpoints; D, E and F are adjacent to the
    two ends of their edge and to each other; no other node is touched. *)
Theorem subdivide_fresh w t T :
  world_ok w → triangles w !! t = Some T → valid_triangle w T →
  cache w !! cache_key w [node_a T; node_b T] = None →
  cache w !! cache_key w [node_b T; node_c T] = None →
  cache w !! cache_key w [node_a T; node_c T] = None →
  let A := node_a T in let B := node_b T in let C := node_c T in
  let D := length (nodes w) in let E := S D in let F := S E in
  ∃ children w',
    subdivide t w = (Ok children, w')
    ∧ map (triangle_at w') children =
        [mkTriangle D B E; mkTriangle A D F; mkTriangle F E C; mkTriangle D E F]
    ∧ length (nodes w') = length (nodes w) + 3
    ∧ conn w' A = (conn w A ∖ {[B; C]}) ∪ {[D; F]}
    ∧ conn w' B = (conn w B ∖ {[A; C]}) ∪ {[D; E]}
    ∧ conn w' C = (conn w C ∖ {[A; B]}) ∪ {[E; F]}
    ∧ conn w' D = {[A; B; E; F]}
    ∧ conn w' E = {[B; C; D; F]}
    ∧ conn w' F = {[A; C; D; E]}
    ∧ (∀ x, x ≠ A → x ≠ B → x ≠ C → x ≠ D → x ≠ E → x ≠ F → conn w' x = conn w x)
    ∧ cache w' = <[cache_key w [A; C] := F]>
                   (<[cache_key w [B; C] := E]> (<[cache_key w [A; B] := D]> (cache w))).
Proof.
  intros Hok Ht Hv KAB KBC KAC A B C D E F.
  destruct Hv as (Ha & Hb & Hc & Hab & Hbc & Hac & Eab & Ebc & Eac).
  fold A B C in Ha, Hb, Hc, Hab, Hbc, Hac, Eab, Ebc, Eac, KAB, KBC, KAC.
  assert (Iab : B ∈ conn w A).
  { destruct Eab as [?|[m Hm]]; [done|]. unfold cache_key in *. congruence. }
  assert (Ibc : C ∈ conn w B).
  { destruct Ebc as [?|[m Hm]]; [done|]. unfold cache_key in *. congruence. }
  assert (Iac : C ∈ conn w A).
  { destruct Eac as [?|[m Hm]]; [done|]. unfold cache_key in *. congruence. }
  (* the three midpoints *)
  destruct (create_new_node_miss_run A B w (ok_graph _ Hok) KAB Iab)
    as (x1 & y1 & _ & R1). fold D in R1.
  set (w1 := miss_world A B x1 y1 w) in *.
  assert (Ok1 : world_ok w1) by (by apply world_ok_miss).
  assert (X1 : extends w w1) by (by apply extends_miss).
  assert (N1 : length (nodes w1) = E).
  { unfold w1. by rewrite nodes_miss_world, length_split_edge. }
  assert (H1 : ∀ x, conn w1 x =
            if decide (x = D) then {[A; B]}
            else if decide (x = A) then (conn w A ∖ {[B]}) ∪ {[D]}
            else if decide (x = B) then (conn w B ∖ {[A]}) ∪ {[D]}
            else conn w x).
  { intros x. by apply conn_miss_world. }
  assert (C1 : cache w1 = <[cache_key w [A; B] := D]> (cache w)) by reflexivity.
  assert (Ha1 : allocated w1 A) by eauto using extends_allocated.
  assert (Hb1 : allocated w1 B) by eauto using extends_allocated.
  assert (Hc1 : allocated w1 C) by eauto using extends_allocated.
  unfold allocated in Ha, Hb, Hc. fold D in Ha, Hb, Hc.
  assert (KBC1 : cache w1 !! cache_key w1 [B; C] = None).
  { rewrite (cache_key_extends w w1), C1 by done.
    rewrite lookup_insert_ne; [done|].
    intros Hk. apply cache_key_inj in Hk; try done. lia. }
  assert (Ibc1 : C ∈ conn w1 B).
  { rewrite H1. decide_by_lia. solve_sets. }
  destruct (create_new_node_miss_run B C w1 (ok_graph _ Ok1) KBC1 Ibc1)
    as (x2 & y2 & _ & R2). rewrite N1 in R2.
  set (w2 := miss_world B C x2 y2 w1) in *.
  assert (Ok2 : world_ok w2) by (by apply world_ok_miss).
  assert (X2 : extends w1 w2) by (by apply extends_miss).
  assert (X02 : extends w w2) by eauto using extends_trans.
  assert (N2 : length (nodes w2) = F).
  { unfold w2. by rewrite nodes_miss_world, length_split_edge, N1. }
  assert (H2 : ∀ x, conn w2 x =
            if decide (x = E) then {[B; C]}
            else if decide (x = B) then (conn w1 B ∖ {[C]}) ∪ {[E]}
            else if decide (x = C) then (conn w1 C ∖ {[B]}) ∪ {[E]}
            else conn w1 x).
  { intros x. unfold w2. rewrite conn_miss_world by done. by rewrite N1. }
  assert (C2 : cache w2 = <[cache_key w [B; C] := E]> (cache w1)).
  { change (cache w2) with (<[cache_key w1 [B; C] := length (nodes w1)]> (cache w1)).
    by rewrite (cache_key_extends w w1), N1 by done. }
  assert (Ha2 : allocated w2 A) by eauto using extends_allocated.
  assert (Hb2 : allocated w2 B) by eauto using extends_allocated.
  assert (Hc2 : allocated w2 C) by eauto using extends_allocated.
  assert (KAC2 : cache w2 !! cache_key w2 [A; C] = None).
  { rewrite (cache_key_extends w w2), C2, C1 by done.
    rewrite !lookup_insert_ne; [done|..];
      intros Hk; apply cache_key_inj in Hk; try done; lia. }
  assert (Iac2 : C ∈ conn w2 A).
  { rewrite H2. decide_by_lia. rewrite H1. decide_by_lia. solve_sets. }
  destruct (create_new_node_miss_run A C w2 (ok_graph _ Ok2) KAC2 Iac2)
    as (x3 & y3 & _ & R3). rewrite N2 in R3.
  set (w3 := miss_world A C x3 y3 w2) in *.
  assert (Ok3 : world_ok w3) by (by apply world_ok_miss).
  assert (N3 : length (nodes w3) = S F).
  { unfold w3. by rewrite nodes_miss_world, length_split_edge, N2. }
  assert (H3 : ∀ x, conn w3 x =
            if decide (x = F) then {[A; C]}
            else if decide (x = A) then (conn w2 A ∖ {[C]}) ∪ {[F]}
            else if decide (x = C) then (conn w2 C ∖ {[A]}) ∪ {[F]}
            else conn w2 x).
  { intros x. unfold w3. rewrite conn_miss_world by done. by rewrite N2. }
  assert (C3 : cache w3 = <[cache_key w [A; C] := F]> (cache w2)).
  { change (cache w3) with (<[cache_key w2 [A; C] := length (nodes w2)]> (cache w2)).
    by rewrite (cache_key_extends w w2), N2 by done. }
  assert (T3 : triangles w3 = triangles w) by reflexivity.
  (* the four triangles *)
  assert (DA : D ≠ A) by lia. assert (DB : D ≠ B) by lia. assert (DC : D ≠ C) by lia.
  assert (EA : E ≠ A) by (unfold E; lia). assert (EB : E ≠ B) by (unfold E; lia).
  assert (EC : E ≠ C) by (unfold E; lia).
  assert (FA : F ≠ A) by (unfold F, E; lia). assert (FB : F ≠ B) by (unfold F, E; lia).
  assert (FC : F ≠ C) by (unfold F, E; lia).
  assert (DE : D ≠ E) by (unfold E; lia). assert (DF : D ≠ F) by (unfold F, E; lia).
  assert (EF : E ≠ F) by (unfold F; lia).
  assert (Al3 : ∀ x, x < S F → allocated w3 x).
  { intros x Hx. unfold allocated. rewrite N3. lia. }
  assert (LA : allocated w3 A) by (apply Al3; unfold F, E; lia).
  assert (LB : allocated w3 B) by (apply Al3; unfold F, E; lia).
  assert (LC : allocated w3 C) by (apply Al3; unfold F, E; lia).
  assert (LD : allocated w3 D) by (apply Al3; unfold F, E; lia).
  assert (LE : allocated w3 E) by (apply Al3; unfold F, E; lia).
  assert (LF : allocated w3 F) by (apply Al3; unfold F, E; lia).
  destruct (Triangle_init_ok D B E w3 Ok3 LD LB LE DB DE (not_eq_sym EB))
    as (w4 & R4 & Ok4 & _ & G4 & T4 & _).
  pose proof (λ x, Triangle_init_conn D B E w3 x (ok_graph _ Ok3) LD LB LE
                     DB DE (not_eq_sym EB)) as H4.
  rewrite R4 in H4. cbn [snd] in H4.
  pose proof (grows_allocated _ _ G4) as A4.
  destruct (Triangle_init_ok A D F w4 Ok4 (proj2 (A4 _) LA) (proj2 (A4 _) LD)
              (proj2 (A4 _) LF) (not_eq_sym DA) (not_eq_sym FA) DF)
    as (w5 & R5 & Ok5 & _ & G5 & T5 & _).
  pose proof (λ x, Triangle_init_conn A D F w4 x (ok_graph _ Ok4) (proj2 (A4 _) LA)
                     (proj2 (A4 _) LD) (proj2 (A4 _) LF)
                     (not_eq_sym DA) (not_eq_sym FA) DF) as H5.
  rewrite R5 in H5. cbn [snd] in H5.
  pose proof (grows_allocated _ _ G5) as A5.
  assert (A35 : ∀ z, allocated w3 z → allocated w5 z) by (intros z Hz; by apply A5, A4).
  destruct (Triangle_init_ok F E C w5 Ok5 (A35 _ LF) (A35 _ LE) (A35 _ LC)
              (not_eq_sym EF) FC EC)
    as (w6 & R6 & Ok6 & _ & G6 & T6 & _).
  pose proof (λ x, Triangle_init_conn F E C w5 x (ok_graph _ Ok5) (A35 _ LF) (A35 _ LE)
                     (A35 _ LC) (not_eq_sym EF) FC EC) as H6.
  rewrite R6 in H6. cbn [snd] in H6.
  pose proof (grows_allocated _ _ G6) as A6.
  assert (A36 : ∀ z, allocated w3 z → allocated w6 z) by (intros z Hz; by apply A6, A35).
  destruct (Triangle_init_ok D E F w6 Ok6 (A36 _ LD) (A36 _ LE) (A36 _ LF) DE DF EF)
    as (w7 & R7 & Ok7 & _ & G7 & T7 & _).
  pose proof (λ x, Triangle_init_conn D E F w6 x (ok_graph _ Ok6) (A36 _ LD) (A36 _ LE)
                     (A36 _ LF) DE DF EF) as H7.
  rewrite R7 in H7. cbn [snd] in H7.
  assert (G37 : grows w3 w7) by eauto using grows_trans.
  assert (H : ∀ x, conn w7 x =
            conn w3 x ∪ triangle_edges D B E x ∪ triangle_edges A D F x
            ∪ triangle_edges F E C x ∪ triangle_edges D E F x).
  { intros x. by rewrite H7, H6, H5, H4. }
  set (L := length (triangles w)) in *.
  exists [L; S L; S (S L); S (S (S L))], w7.
  split.
  { unfold subdivide, bind at 1, gets. rewrite (triangle_at_lookup _ _ _ Ht).
    fold A B C.
    unfold bind at 1. rewrite R1. unfold bind at 1. rewrite R2.
    unfold bind at 1. rewrite R3. unfold bind at 1. rewrite R4.
    unfold bind at 1. rewrite R5. unfold bind at 1. rewrite R6.
    unfold bind at 1. rewrite R7. unfold ret.
    rewrite T6, T5, T4, T3, !length_app. fold L. simpl.
    replace (L + 1 + 1 + 1) with (S (S (S L))) by lia.
    replace (L + 1 + 1) with (S (S L)) by lia.
    by replace (L + 1) with (S L) by lia. }
  split.
  { unfold triangle_at. cbn [map]. rewrite T7, T6, T5, T4, T3, <- !app_assoc.
    clear. cbn [app]. rewrite !lookup_app_r by (unfold L; lia).
    replace (L - length (triangles w)) with 0 by (unfold L; lia).
    replace (S L - length (triangles w)) with 1 by (unfold L; lia).
    replace (S (S L) - length (triangles w)) with 2 by (unfold L; lia).
    replace (S (S (S L)) - length (triangles w)) with 3 by (unfold L; lia).
    reflexivity. }
  split; [rewrite (gr_length _ _ G37), N3; unfold F, E, D; lia|].
  assert (Fr : conn w D = ∅ ∧ conn w E = ∅ ∧ conn w F = ∅).
  { repeat split; apply conn_dangling; unfold allocated, F, E; fold D; lia. }
  destruct Fr as (FrD & FrE & FrF).
  unfold triangle_edges in H.
  split.
  { rewrite H, H3. decide_by_done.
    rewrite H2. decide_by_done.
    rewrite H1. decide_by_done.
    solve_sets. }
  split.
  { rewrite H, H3. decide_by_done.
    rewrite H2. decide_by_done.
    rewrite H1. decide_by_done.
    solve_sets. }
  split.
  { rewrite H, H3. decide_by_done.
    rewrite H2. decide_by_done.
    rewrite H1. decide_by_done.
    solve_sets. }
  split.
  { rewrite H, H3. decide_by_done.
    rewrite H2. decide_by_done.
    rewrite H1. decide_by_done.
    solve_sets. }
  split.
  { rewrite H, H3. decide_by_done.
    rewrite H2. decide_by_done.
    solve_sets. }
  split.
  { rewrite H, H3. decide_by_done.
    solve_sets. }
  split.
  { intros x xA xB xC xD xE xF.
    rewrite H, H3. decide_by_done.
    rewrite H2. decide_by_done.
    rewrite H1. decide_by_done.
    solve_sets. }
  by rewrite (gr_cache _ _ G37), C3, C2, C1.
Qed.

Lemma subdivide_fresh_witness :
  ∃ children w',
    subdivide 0 seed_world = (Ok children, w')
    ∧ map (triangle_at w') children =
        [mkTriangle 3 1 4; mkTriangle 0 3 5; mkTriangle 5 4 2; mkTriangle 3 4 5]
    ∧ length (nodes w') = length (nodes seed_world) + 3
    ∧ conn w' 0 = (conn seed_world 0 ∖ {[1; 2]}) ∪ {[3; 5]}
    ∧ conn w' 1 = (conn seed_world 1 ∖ {[0; 2]}) ∪ {[3; 4]}
    ∧ conn w' 2 = (conn seed_world 2 ∖ {[0; 1]}) ∪ {[4; 5]}
    ∧ conn w' 3 = {[0; 1; 4; 5]}
    ∧ conn w' 4 = {[1; 2; 3; 5]}
    ∧ conn w' 5 = {[0; 2; 3; 4]}
    ∧ (∀ x, x ≠ 0 → x ≠ 1 → x ≠ 2 → x ≠ 3 → x ≠ 4 → x ≠ 5 →
            conn w' x = conn seed_world x)
    ∧ cache w' = <[cache_key seed_world [0; 2] := 5]>
                   (<[cache_key seed_world [1; 2] := 4]>
                      (<[cache_key seed_world [0; 1] := 3]> (cache seed_world))).
Proof.
  destruct seed_world_ok as [Hok (T & Ht & Hv)].
  assert (HT : T = mkTriangle 0 1 2).
  { assert (H0 : triangles seed_world !! 0 = Some (mkTriangle 0 1 2))
      by (vm_compute; reflexivity).
    congruence. }
  subst T.
  apply (subdivide_fresh seed_world 0 (mkTriangle 0 1 2) Hok Ht Hv);
    vm_compute; reflexivity.
Defined.

End More_fresh_subdivision.

Section More_cache_witness.

(** [seed_world] after the midpoint of the edge 0-1 was requested. *)
Definition midpoint_world : World := (create_new_node 0 1 seed_world).2.

(** The entry of the edge 0-1 survives the request for the edge 1-2. *)
Lemma create_new_node_cache_grows_witness :
  cache (create_new_node 1 2 midpoint_world).2 !! cache_key midpoint_world [0; 1]
  = Some 3.
Proof.
  apply (proj1 (create_new_node_cache_grows 1 2 midpoint_world)).
  vm_compute. reflexivity.
Defined.

End More_cache_witness.
